(** * Insect Song Learning Game: round and scoring logic of [game.js]

    A shallow embedding of the logic of [game.js] (the session state, the
    shuffle, the region pool, the answer choices, the answer and next-round
    handlers, the end message and the fact redaction) together with the
    properties the specification states about them.

    Conventions of the embedding.
    - A JavaScript string is the list of its UTF-16 code units, so that
      [length] is the [.length] of the source.  String literals of the
      source are written with [js].
    - A species record keeps the fields the modelled functions read
      ([commonName], [species], [region], [fact]); a missing field and the
      empty string are both falsy in every test of the source and are both
      the empty list here.  [null] songs are [None].
    - [Math.random()] is a tape of rationals (a double in [0,1) is one);
      every function that shuffles takes the tape and returns the rest.
    - The page elements of index.html are taken to be present, so the
      [if (el)] guards of the source are the taken branch. *)

From Stdlib Require Import String Ascii.
From Stdlib Require Import List Arith Bool Lia ZArith NArith QArith.
From Stdlib Require Import Permutation Sorted.
From Equations Require Import Equations.
Import ListNotations.

Set Default Proof Using "Type".
Local Open Scope nat_scope.

(* ------------------------------------------------------------------------- *)
(** ** JavaScript strings *)

Definition codeunit := N.
Definition jsstring := list codeunit.

(** A source literal made of ASCII characters, as code units. *)
Definition js (s : string) : jsstring :=
  map N_of_ascii (list_ascii_of_string s).

(** [a === b] on strings. *)
Fixpoint jseqb (a b : jsstring) : bool :=
  match a, b with
  | [], [] => true
  | x :: a', y :: b' => N.eqb x y && jseqb a' b'
  | _, _ => false
  end.

(** Truthiness of a string: [Boolean(s)], [if (s)], [!s]. *)
Definition truthy (s : jsstring) : bool :=
  match s with [] => false | _ :: _ => true end.

(* ------------------------------------------------------------------------- *)
(** ** species-data.js *)

Record Song := mkSong {
  commonName : jsstring;
  species : jsstring;
  region : jsstring;
  fact : jsstring
}.

(** [window.SONGS_DATA], with the text of the eight entries. *)
Definition SONGS_DATA : list Song :=
  [ mkSong (js "Four-spotted Tree Cricket") (js "Oecanthus quadripunctatus")
      (js "North America")
      (js "Four-spotted tree crickets high pitched trills from up in the trees. They amplify their songs by building tools called baffles out of leaves.");
    mkSong (js "Swamp Cicada") (js "Neotibicen tibicen")
      (js "Eastern U.S.")
      (js "Swamp cicadas produce loud songs by vibrating a thin membrane of an organ on their abdomen called a tymbal. Their songs are so loud that they actually turn down their hearing when they sing to avoid going deaf!");
    mkSong (js "Common True Katydid") (js "Pterophylla camellifolia")
      (js "Eastern U.S. forests")
      (js "Common true katydids produce rhythmic songs by rubbing their wings together. Unlike crickets who are righties, katydids are all lefties and rub their left wing over their right wings.");
    mkSong (js "Meadow Grasshopper") (js "Pseudochorthippus parallelus")
      (js "European grasslands")
      (js "Male meadow grasshoppers create their percussive songs by rubbing their hind legs against hard forewings. Most grasshoppers don't actually sing, but some of the few species that do can be very easy to find.");
    mkSong (js "European Field Cricket") (js "Gryllus campestris")
      (js "European grasslands")
      (js "Field crickets dig simple burrows and sing from the entrance. Populations of European field crickets have rapidly declined due to habitat loss. Once they disappear from an area they rarely recover. They are now the most endangered cricket in Britain and conservation efforts are underway to reintroduce them to places they have gone extinct across Europe.");
    mkSong (js "European Mole Cricket") (js "Gryllotalpa gryllotalpa")
      (js "Europe")
      (js "Mole crickets are powerful diggers that build resonating burrows. These underground chambers act like acoustic amplifiers, greatly boosting the volume of their songs and showing how insects can use constructed spaces to enhance communication.");
    mkSong (js "13-year Cicada") (js "Magicicada neotredecim")
      (js "Midwestern U.S.")
      (js "Periodical cicadas spend 13 years underground feeding on tree roots before emerging in synchronized, spectacular numbers. Their unusual life cycle helps them avoid predators and overwhelm ecosystems with sheer abundance.");
    mkSong (js "Sword-bearing Conehead") (js "Neoconocephalus ensiger")
      (js "Eastern North America")
      (js "Conehead katydids get their name from the pointed facial cone above their mouthparts. Females have a long, sword-like ovipositor used to insert eggs into plant stems, which is the origin of the "
         ++ [8220%N] ++ js "sword-bearing" ++ [8221%N] ++ js " name.") ].

(* ------------------------------------------------------------------------- *)
(** ** Configuration *)

Definition TOTAL_ROUNDS : nat := 5.

Module MODES.
Definition SPECTRO : string := "spectrogram".
Definition IMAGE : string := "image".
Definition FACTS : string := "facts".
End MODES.

(* ------------------------------------------------------------------------- *)
(** ** Randomness and [shuffle] *)

(** The results of the coming calls of [Math.random()], in call order. *)
Definition Rng := nat -> Q.

(** [n] successive calls, and the tape that is left. *)
Definition draw (n : nat) (rng : Rng) : list Q * Rng :=
  (map rng (seq 0 n), fun i => rng (n + i)).

Section Shuffle.
Variable A : Type.

(** The comparator [(a, b) => a.r - b.r] is non-positive: [a] may stay
    in front of [b]. *)
Definition key_le (a b : A * Q) : bool := Qle_bool (snd a) (snd b).

(** [Array.prototype.sort] is stable: an element goes in front of the
    first later element whose key is not smaller. *)
Fixpoint sort_insert (x : A * Q) (l : list (A * Q)) : list (A * Q) :=
  match l with
  | [] => [x]
  | y :: l' => if key_le x y then x :: y :: l' else y :: sort_insert x l'
  end.

Fixpoint sort_by_key (l : list (A * Q)) : list (A * Q) :=
  match l with
  | [] => []
  | x :: l' => sort_insert x (sort_by_key l')
  end.

(** [arr.map(v => ({v, r})).sort((a, b) => a.r - b.r).map(x => x.v)]
    on the keys [rs] drawn for the elements, in order. *)
Definition shuffle_with (rs : list Q) (arr : list A) : list A :=
  map fst (sort_by_key (combine arr rs)).

Definition shuffle (arr : list A) (rng : Rng) : list A * Rng :=
  let (rs, rng') := draw (length arr) rng in
  (shuffle_with rs arr, rng').
End Shuffle.

Arguments key_le {A} a b.
Arguments sort_insert {A} x l.
Arguments sort_by_key {A} l.
Arguments shuffle_with {A} rs arr.
Arguments shuffle {A} arr rng.

(* ------------------------------------------------------------------------- *)
(** ** Region pool and answer choices *)

Section Pool.
(** [const SONGS], the copy of the catalog taken at load time. *)
Variable SONGS : list Song.

(** [currentRegion] is [null] (all regions) or a region name:
    [if (!currentRegion) return SONGS.slice();], then the filter on
    [s.region === currentRegion]. *)
Definition getRegionPool (currentRegion : option jsstring) : list Song :=
  match currentRegion with
  | None => SONGS
  | Some n =>
      if truthy n then filter (fun s => jseqb (region s) n) SONGS
      else SONGS
  end.

(** [getRegionPool().map(s => s.commonName).filter(Boolean)] *)
Definition poolNames (currentRegion : option jsstring) : list jsstring :=
  filter truthy (map commonName (getRegionPool currentRegion)).

Definition buildChoices (currentRegion : option jsstring)
    (correctName : jsstring) (rng : Rng) : list jsstring * Rng :=
  let pool := poolNames currentRegion in
  let others := filter (fun n => negb (jseqb n correctName)) pool in
  let (shuffled, rng1) := shuffle others rng in
  let wrong := firstn 3 shuffled in
  shuffle (correctName :: wrong) rng1.

(* ----------------------------------------------------------------------- *)
(** ** Session state *)

(** The [let] variables of the module that the game logic reads or
    writes, and the three pieces of the page it drives: the answer
    buttons, the Next button and the end overlay. *)
Record State := mkState {
  currentMode : string;
  currentRegion : option jsstring;
  sessionSongs : list Song;
  sessionIndex : nat;
  currentSong : option Song;
  roundsAnswered : nat;
  scoreCorrect : nat;
  hasAnswered : bool;
  hadWrongGuess : bool;
  answerButtons : list Song;
  nextBtnDisabled : bool;
  endOverlayHidden : bool
}.

(** The state when the script has loaded and no game was started: the
    initial values of the [let] variables, no answer buttons, and the
    page with Next disabled and the end overlay hidden. *)
Definition initial : State :=
  {| currentMode := MODES.SPECTRO; currentRegion := None;
     sessionSongs := []; sessionIndex := 0; currentSong := None;
     roundsAnswered := 0; scoreCorrect := 0;
     hasAnswered := false; hadWrongGuess := false;
     answerButtons := []; nextBtnDisabled := true;
     endOverlayHidden := true |}.

(** [renderAnswers(song)]: one button per choice that
    [SONGS.find(s => s.commonName === commonName)] finds. *)
Definition findSong (name : jsstring) : option Song :=
  find (fun s => jseqb (commonName s) name) SONGS.

Definition renderAnswers (st : State) (song : Song) (rng : Rng)
    : list Song * Rng :=
  let (choices, rng') := buildChoices (currentRegion st) (commonName song) rng in
  (flat_map (fun n => match findSong n with Some o => [o] | None => [] end)
     choices, rng').

Definition renderRound (st : State) (rng : Rng) : State * Rng :=
  match sessionSongs st with
  | [] => (st, rng)
  | _ :: _ =>
      match nth_error (sessionSongs st) (sessionIndex st) with
      | None =>
          ({| currentMode := currentMode st; currentRegion := currentRegion st;
              sessionSongs := sessionSongs st; sessionIndex := sessionIndex st;
              currentSong := None;
              roundsAnswered := roundsAnswered st;
              scoreCorrect := scoreCorrect st;
              hasAnswered := hasAnswered st;
              hadWrongGuess := hadWrongGuess st;
              answerButtons := answerButtons st;
              nextBtnDisabled := nextBtnDisabled st;
              endOverlayHidden := endOverlayHidden st |}, rng)
      | Some song =>
          let (buttons, rng') := renderAnswers st song rng in
          ({| currentMode := currentMode st; currentRegion := currentRegion st;
              sessionSongs := sessionSongs st; sessionIndex := sessionIndex st;
              currentSong := Some song;
              roundsAnswered := roundsAnswered st;
              scoreCorrect := scoreCorrect st;
              hasAnswered := false;
              hadWrongGuess := false;
              answerButtons := buttons;
              nextBtnDisabled := true;
              endOverlayHidden := endOverlayHidden st |}, rng')
      end
  end.

(** [showEndOverlay()], as far as the state goes: the overlay loses its
    [hidden] class. *)
Definition showEndOverlay (st : State) : State :=
  {| currentMode := currentMode st; currentRegion := currentRegion st;
     sessionSongs := sessionSongs st; sessionIndex := sessionIndex st;
     currentSong := currentSong st;
     roundsAnswered := roundsAnswered st; scoreCorrect := scoreCorrect st;
     hasAnswered := hasAnswered st; hadWrongGuess := hadWrongGuess st;
     answerButtons := answerButtons st;
     nextBtnDisabled := nextBtnDisabled st;
     endOverlayHidden := false |}.

Definition hideEndOverlay (st : State) : State :=
  {| currentMode := currentMode st; currentRegion := currentRegion st;
     sessionSongs := sessionSongs st; sessionIndex := sessionIndex st;
     currentSong := currentSong st;
     roundsAnswered := roundsAnswered st; scoreCorrect := scoreCorrect st;
     hasAnswered := hasAnswered st; hadWrongGuess := hadWrongGuess st;
     answerButtons := answerButtons st;
     nextBtnDisabled := nextBtnDisabled st;
     endOverlayHidden := true |}.

(** [handleAnswer(songObj, buttonEl)]. *)
Definition handleAnswer (st : State) (songObj : option Song) : State :=
  if hasAnswered st then st else
  match currentSong st, songObj with
  | None, _ => st
  | _, None => st
  | Some cur, Some obj =>
      let correct := jseqb (commonName obj) (commonName cur) in
      if negb correct then
        if negb (hadWrongGuess st) then
          {| currentMode := currentMode st; currentRegion := currentRegion st;
             sessionSongs := sessionSongs st; sessionIndex := sessionIndex st;
             currentSong := currentSong st;
             roundsAnswered := roundsAnswered st;
             scoreCorrect := scoreCorrect st;
             hasAnswered := hasAnswered st;
             hadWrongGuess := true;
             answerButtons := answerButtons st;
             nextBtnDisabled := nextBtnDisabled st;
             endOverlayHidden := endOverlayHidden st |}
        else st
      else
        let rounds := S (roundsAnswered st) in
        let firstTry := negb (hadWrongGuess st) in
        let score := if firstTry then S (scoreCorrect st) else scoreCorrect st in
        let st1 :=
          {| currentMode := currentMode st; currentRegion := currentRegion st;
             sessionSongs := sessionSongs st; sessionIndex := sessionIndex st;
             currentSong := currentSong st;
             roundsAnswered := rounds;
             scoreCorrect := score;
             hasAnswered := true;
             hadWrongGuess := hadWrongGuess st;
             answerButtons := answerButtons st;
             nextBtnDisabled := (TOTAL_ROUNDS <=? rounds);
             endOverlayHidden := endOverlayHidden st |} in
        if TOTAL_ROUNDS <=? rounds then showEndOverlay st1 else st1
  end.

Definition goToNextRound (st : State) (rng : Rng) : State * Rng :=
  if negb (hasAnswered st) then (st, rng) else
  if TOTAL_ROUNDS <=? roundsAnswered st then (st, rng) else
  let st1 :=
    {| currentMode := currentMode st; currentRegion := currentRegion st;
       sessionSongs := sessionSongs st; sessionIndex := S (sessionIndex st);
       currentSong := currentSong st;
       roundsAnswered := roundsAnswered st; scoreCorrect := scoreCorrect st;
       hasAnswered := hasAnswered st; hadWrongGuess := hadWrongGuess st;
       answerButtons := answerButtons st;
       nextBtnDisabled := nextBtnDisabled st;
       endOverlayHidden := endOverlayHidden st |} in
  if sessionIndex st1 <? List.length (sessionSongs st1)
  then renderRound st1 rng else (st1, rng).

Definition startNewGame (st : State) (rng : Rng) : State * Rng :=
  let pool := getRegionPool (currentRegion st) in
  match pool with
  | [] => (st, rng)
  | _ :: _ =>
      let (shuffled, rng1) := shuffle pool rng in
      renderRound
        {| currentMode := currentMode st; currentRegion := currentRegion st;
           sessionSongs := firstn TOTAL_ROUNDS shuffled;
           sessionIndex := 0;
           currentSong := currentSong st;
           roundsAnswered := 0; scoreCorrect := 0;
           hasAnswered := false; hadWrongGuess := false;
           answerButtons := answerButtons st;
           nextBtnDisabled := true;
           endOverlayHidden := endOverlayHidden st |} rng1
  end.

Definition setModeAndStart (st : State) (mode : string) (rng : Rng)
    : State * Rng :=
  startNewGame
    {| currentMode := mode; currentRegion := currentRegion st;
       sessionSongs := sessionSongs st; sessionIndex := sessionIndex st;
       currentSong := currentSong st;
       roundsAnswered := roundsAnswered st; scoreCorrect := scoreCorrect st;
       hasAnswered := hasAnswered st; hadWrongGuess := hadWrongGuess st;
       answerButtons := answerButtons st;
       nextBtnDisabled := nextBtnDisabled st;
       endOverlayHidden := endOverlayHidden st |} rng.

(** The click handler of a region button: [currentRegion = name] (or
    [null] for the All-regions button), then [startNewGame()]. *)
Definition chooseRegion (st : State) (name : option jsstring) (rng : Rng)
    : State * Rng :=
  startNewGame
    {| currentMode := currentMode st; currentRegion := name;
       sessionSongs := sessionSongs st; sessionIndex := sessionIndex st;
       currentSong := currentSong st;
       roundsAnswered := roundsAnswered st; scoreCorrect := scoreCorrect st;
       hasAnswered := hasAnswered st; hadWrongGuess := hadWrongGuess st;
       answerButtons := answerButtons st;
       nextBtnDisabled := nextBtnDisabled st;
       endOverlayHidden := endOverlayHidden st |} rng.

(* ----------------------------------------------------------------------- *)
(** ** The page as a state machine *)

(** The handlers that [attachEvents] and [buildRegionButtons] install. *)
Inductive Event :=
| ClickAnswer (songObj : option Song)
| ClickNext
| ClickStart
| ClickPlayAgain
| ClickMode (mode : string)
| ClickRegion (name : option jsstring)
| ClickChange.

Definition step (w : State * Rng) (e : Event) : State * Rng :=
  let (st, rng) := w in
  match e with
  | ClickAnswer o => (handleAnswer st o, rng)
  | ClickNext => goToNextRound st rng
  | ClickStart => setModeAndStart st MODES.SPECTRO rng
  | ClickPlayAgain => startNewGame (hideEndOverlay st) rng
  | ClickMode m => setModeAndStart st m rng
  | ClickRegion r => chooseRegion st r rng
  | ClickChange => (hideEndOverlay st, rng)
  end.

Definition run (w : State * Rng) (es : list Event) : State * Rng :=
  fold_left step es w.

(** The states the page can be in: the one at load time, and those a
    handler leaves, whatever [Math.random()] returns from then on. *)
Inductive reachable : State -> Prop :=
| reach_initial : reachable initial
| reach_step st rng e :
    reachable st -> reachable (fst (step (st, rng) e)).

(** The events that start a game; the others play the current one. *)
Definition starts_game (e : Event) : bool :=
  match e with
  | ClickAnswer _ | ClickNext | ClickChange => false
  | _ => true
  end.

(** The test that makes [handleAnswer] show the end overlay and makes
    [goToNextRound] refuse. *)
Definition gameComplete (st : State) : bool :=
  TOTAL_ROUNDS <=? roundsAnswered st.

(** An answer that [handleAnswer] takes as the correct one. *)
Definition answersCorrectly (st : State) (songObj : option Song) : bool :=
  negb (hasAnswered st) &&
  match currentSong st, songObj with
  | Some cur, Some obj => jseqb (commonName obj) (commonName cur)
  | _, _ => false
  end.
End Pool.

(* ------------------------------------------------------------------------- *)
(** ** End-of-game message *)

Local Open Scope string_scope.

(** [endMessage(score, mode)]: [switch (score)] per mode, [case 5] sharing
    its body with [default]. *)
Definition endMessage (score : nat) (mode : string) : string :=
  if String.eqb mode MODES.SPECTRO then
    match score with
    | 0 => "You need to clean your ears. Play again..."
    | 1 => "You need to learn to listen. Play again..."
    | 2 => "Almost half way there!"
    | 3 => "Pretty good! Your chance of finding a mate is more than 50%!"
    | 4 => "Impressive ears!"
    | _ => "Master of insect sounds! You must be an insect sound biologist!"
    end
  else if String.eqb mode MODES.IMAGE then
    match score with
    | 0 => "You need new glasses. Play again..."
    | 1 => "You need to look more closely. Play again..."
    | 2 => "Almost half way there! Keep sharpening your eyes."
    | 3 => "Pretty good! Your field ID skills are waking up."
    | 4 => "Impressive eye for insects!"
    | _ => "Master of insect identification! Your field guide game is strong!"
    end
  else if String.eqb mode MODES.FACTS then
    match score with
    | 0 => "You need to hit the books. Play again..."
    | 1 => "You need to brush up your insect trivia."
    | 2 => "Almost half way there! These facts are starting to stick."
    | 3 => "Pretty good! Your insect natural history memory is solid."
    | 4 => "Impressive knowledge! You're almost a walking field guide."
    | _ => "Master of insect facts! You must be an insect natural history expert!"
    end
  else "Nice work!".

(** The three modes of [MODES]. *)
Definition modes : list string := [MODES.SPECTRO; MODES.IMAGE; MODES.FACTS].

(** The string literals of the three [switch] statements, in source
    order. *)
Definition endMessageTable : list string :=
  [ "You need to clean your ears. Play again...";
    "You need to learn to listen. Play again...";
    "Almost half way there!";
    "Pretty good! Your chance of finding a mate is more than 50%!";
    "Impressive ears!";
    "Master of insect sounds! You must be an insect sound biologist!";
    "You need new glasses. Play again...";
    "You need to look more closely. Play again...";
    "Almost half way there! Keep sharpening your eyes.";
    "Pretty good! Your field ID skills are waking up.";
    "Impressive eye for insects!";
    "Master of insect identification! Your field guide game is strong!";
    "You need to hit the books. Play again...";
    "You need to brush up your insect trivia.";
    "Almost half way there! These facts are starting to stick.";
    "Pretty good! Your insect natural history memory is solid.";
    "Impressive knowledge! You're almost a walking field guide.";
    "Master of insect facts! You must be an insect natural history expert!" ].

Local Close Scope string_scope.

(* ------------------------------------------------------------------------- *)
(** ** Fact redaction *)

Definition BULLET : codeunit := 8226%N.     (* U+2022 *)
Definition HYPHEN : codeunit := 45%N.
Definition SPACE : codeunit := 32%N.
Definition BACKSLASH : codeunit := 92%N.
Definition BAR : codeunit := 124%N.

(** [s.replace(/-/g, " ")] *)
Definition unhyphen (s : jsstring) : jsstring :=
  map (fun c => if N.eqb c HYPHEN then SPACE else c) s.

(** The class [\s]: white space and line terminators. *)
Definition is_space (c : codeunit) : bool :=
  existsb (N.eqb c)
    [9; 10; 11; 12; 13; 32; 160; 5760; 8232; 8233; 8239; 8287; 12288; 65279]%N
  || (N.leb 8192 c && N.leb c 8202).

(** [s.split(/\s+/)]: the pieces between runs of white space, the empty
    pieces at both ends included.  [cur] is the piece being read,
    reversed; [in_run] says that the last unit read was white space. *)
Fixpoint split_go (s cur : jsstring) (in_run : bool) : list jsstring :=
  match s with
  | [] => [rev cur]
  | c :: s' =>
      if is_space c then
        if in_run then split_go s' cur true
        else rev cur :: split_go s' [] true
      else split_go s' (c :: cur) false
  end.

Definition split_ws (s : jsstring) : list jsstring := split_go s [] false.

(** [t] is at the front of [s], unit for unit. *)
Fixpoint starts_with (t s : jsstring) : bool :=
  match t, s with
  | [], _ => true
  | a :: t', b :: s' => N.eqb a b && starts_with t' s'
  | _ :: _, [] => false
  end.

(** [hay.includes(needle)] *)
Fixpoint includes (hay needle : jsstring) : bool :=
  starts_with needle hay ||
  match hay with
  | [] => false
  | _ :: hay' => includes hay' needle
  end.

(** The class [[.*+?^${}()|[\]\\]] of the escaping [replace]. *)
Definition is_special (c : codeunit) : bool :=
  existsb (N.eqb c) (js ".*+?^${}()|[]\").

(** [t.replace(/[.*+?^${}()|[\]\\]/g, "\\$&")] *)
Definition escapeRegExp (t : jsstring) : jsstring :=
  flat_map (fun c => if is_special c then [BACKSLASH; c] else [c]) t.

(** [[...new Set(xs)]]: first occurrences, in order. *)
Fixpoint dedupe (seen xs : list jsstring) : list jsstring :=
  match xs with
  | [] => []
  | x :: xs' =>
      if existsb (jseqb x) seen then dedupe seen xs'
      else x :: dedupe (x :: seen) xs'
  end.

(** [parts.join("|")] *)
Fixpoint join_bar (parts : list jsstring) : jsstring :=
  match parts with
  | [] => []
  | [p] => p
  | p :: ps => p ++ BAR :: join_bar ps
  end.

(** What [new RegExp(pattern, "gi")] reads in a pattern made of plain
    units, backslash-escaped units and bars: the alternatives, in order,
    each a literal.  [cur] is the alternative being read, reversed. *)
Fixpoint alternatives_go (pattern cur : jsstring) : list jsstring :=
  match pattern with
  | [] => [rev cur]
  | c :: p' =>
      if N.eqb c BACKSLASH then
        match p' with
        | [] => [rev cur]
        | d :: p'' => alternatives_go p'' (d :: cur)
        end
      else if N.eqb c BAR then rev cur :: alternatives_go p' []
      else alternatives_go p' (c :: cur)
  end.

Definition alternatives (pattern : jsstring) : list jsstring :=
  alternatives_go pattern [].

Section Redact.
(** The two case mappings of the host, which the source does not hold:
    the per-unit canonicalization of the [i] flag and
    [String.prototype.toLowerCase]. *)
Variable canonicalize : codeunit -> codeunit.
Variable toLowerCase : jsstring -> jsstring.

(** The literal [t] matches at the front of [s] under the [i] flag. *)
Fixpoint matches_literal (t s : jsstring) : bool :=
  match t, s with
  | [], _ => true
  | a :: t', b :: s' =>
      N.eqb (canonicalize a) (canonicalize b) && matches_literal t' s'
  | _ :: _, [] => false
  end.

(** A match of the alternation at the front of [s]: the first
    alternative that matches wins; the result is the length matched. *)
Fixpoint match_here (alts : list jsstring) (s : jsstring) : option nat :=
  match alts with
  | [] => None
  | t :: alts' =>
      if matches_literal t s then Some (List.length t)
      else match_here alts' s
  end.

(** [text.replace(re, fn)] for a global [re]: the matches are found
    from left to right without overlap, each is replaced by [fn] of the
    matched text, and after an empty match the scan moves on by one
    unit. *)
Equations? replace_global (alts : list jsstring)
    (fn : jsstring -> jsstring) (text : jsstring) : jsstring
    by wf (List.length text) lt :=
  replace_global alts fn [] with match_here alts [] => {
    | Some _ => fn []
    | None => [] };
  replace_global alts fn (c :: text') with match_here alts (c :: text') => {
    | Some (S k) =>
        fn (firstn (S k) (c :: text'))
        ++ replace_global alts fn (skipn (S k) (c :: text'))
    | Some 0 => fn [] ++ c :: replace_global alts fn text'
    | None => c :: replace_global alts fn text' }.
Proof.
  all: simpl; try rewrite length_skipn; lia.
Qed.

(** The targets that [redactFact] collects for a song, in push order. *)
Definition long_parts (s : jsstring) : list jsstring :=
  filter (fun part => 2 <? List.length part) (split_ws s).

Definition groups : list jsstring :=
  map js ["cricket"; "crickets"; "cicada"; "cicadas"; "grasshopper";
          "grasshoppers"; "katydid"; "katydids"; "conehead";
          "coneheads"]%string.

Definition redactTargets (song : Song) : list jsstring :=
  (if truthy (commonName song)
   then [commonName song; unhyphen (commonName song)]
        ++ long_parts (unhyphen (commonName song))
   else [])
  ++ (if truthy (species song) then long_parts (species song) else [])
  ++ groups
  ++ (if includes (toLowerCase (commonName song)) (js "13-year")
         || includes (toLowerCase (species song)) (js "magicicada")
      then map js ["13"; "13-year"; "13 year"; "periodical cicadas";
                   "periodical cicada"; "periodical"]%string
      else []).

Definition redactFact (song : option Song) : jsstring :=
  match song with
  | None => []
  | Some song =>
      if negb (truthy (fact song)) then [] else
      let text := fact song in
      let escaped :=
        dedupe [] (map escapeRegExp (filter truthy (redactTargets song))) in
      match escaped with
      | [] => text
      | _ :: _ =>
          replace_global (alternatives (join_bar escaped))
            (fun m => repeat BULLET (List.length m)) text
      end
  end.
End Redact.

(** The case mappings restricted to the ASCII letters, where every host
    agrees; used to run the redaction on catalog entries. *)
Definition canonicalize_ascii (c : codeunit) : codeunit :=
  if N.leb 97 c && N.leb c 122 then (c - 32)%N else c.

Definition toLowerCase_ascii (s : jsstring) : jsstring :=
  map (fun c => if N.leb 65 c && N.leb c 90 then (c + 32)%N else c) s.

(* ------------------------------------------------------------------------- *)
(** ** Notions used in the statements *)

(** Equality of strings is decidable. *)
Definition jsstring_eq_dec (a b : jsstring) : {a = b} + {a <> b} :=
  list_eq_dec N.eq_dec a b.

(** [x] has a smaller key than [y]: the comparator is positive on (y, x). *)
Definition key_lt {A : Type} (x y : A * Q) : Prop := key_le y x = false.

(** The keys 0, 1, 2, ... *)
Definition ranks (from n : nat) : list Q :=
  map (fun i => inject_Z (Z.of_nat i)) (seq from n).

(** [pool.filter(n => n !== correctName)], the [others] of
    [buildChoices]. *)
Definition othersOf (pool : list jsstring) (correctName : jsstring) :=
  filter (fun n => negb (jseqb n correctName)) pool.

(** A runnable test that a list of names has no repetition. *)
Fixpoint distinctb (l : list jsstring) : bool :=
  match l with
  | [] => true
  | x :: l' => negb (existsb (jseqb x) l') && distinctb l'
  end.

(** What the counters and flags of every reachable state satisfy: the
    score is at most the number of answered rounds, which is at most 5
    and below 5 while a round is open; an open round is the one at the
    session index, which then equals the number of answered rounds; and
    after an answer the index is one behind that number, unless Next has
    run past the last session song. *)
Record Inv (st : State) : Prop := {
  inv_score : scoreCorrect st <= roundsAnswered st;
  inv_rounds : roundsAnswered st <= TOTAL_ROUNDS;
  inv_open : hasAnswered st = false -> roundsAnswered st < TOTAL_ROUNDS;
  inv_index :
    hasAnswered st = false -> currentSong st <> None ->
    sessionIndex st = roundsAnswered st;
  inv_target :
    hasAnswered st = false -> currentSong st <> None ->
    currentSong st = nth_error (sessionSongs st) (sessionIndex st);
  inv_closed :
    hasAnswered st = true ->
    S (sessionIndex st) = roundsAnswered st \/
    (List.length (sessionSongs st) <= sessionIndex st /\
     List.length (sessionSongs st) <= roundsAnswered st)
}.

(** A guess that is not the current song. *)
Definition wrong_for (cur : Song) (w : Song) : Prop :=
  commonName w <> commonName cur.

(** The state after the guesses [ws], in order. *)
Definition guesses (st : State) (ws : list Song) : State :=
  fold_left handleAnswer (map Some ws) st.

(** Every session song has been answered, fewer than five rounds are
    answered and the round is closed: Next has no song to render. *)
Definition stalled (st : State) : Prop :=
  hasAnswered st = true /\
  roundsAnswered st < TOTAL_ROUNDS /\
  List.length (sessionSongs st) <= S (sessionIndex st).

(** A unit of the output is the unit of the source or a bullet. *)
Definition kept_or_bullet (out src : codeunit) : Prop :=
  out = src \/ out = BULLET.

(* ------------------------------------------------------------------------- *)
(** ** Test data *)

(** A tape of pseudo-random keys to run the functions on. *)
Definition sample_tape : Rng :=
  fun i => (Z.of_nat (Nat.modulo (i * 7 + 3) 11) # 11).

(** The second entry of the catalog, the Swamp Cicada. *)
Definition swampCicada : Song := nth 1 SONGS_DATA (mkSong [] [] [] []).

(** The seventh entry of the catalog, the target of the first round of
    [started]. *)
Definition periodicalCicada : Song := nth 6 SONGS_DATA (mkSong [] [] [] []).

(** Test data: the catalog's game started on [sample_tape], and the
    answer that is right for a state. *)
Definition started : State * Rng :=
  run SONGS_DATA (initial, sample_tape) [ClickStart].

Definition rightAnswer (w : State * Rng) : Event :=
  ClickAnswer (currentSong (fst w)).

(** One round played without a miss: the right answer, then Next. *)
Definition playRound (SONGS : list Song) (w : State * Rng) : State * Rng :=
  step SONGS (step SONGS w (rightAnswer w)) ClickNext.

(** Test data: the catalog's game after four rounds played without a
    miss, in its fifth round. *)
Definition inFifthRound : State * Rng :=
  playRound SONGS_DATA (playRound SONGS_DATA
    (playRound SONGS_DATA (playRound SONGS_DATA started))).

(** Test data: a catalog of two entries and its game with both rounds
    played. *)
Definition twoSongs : list Song := firstn 2 SONGS_DATA.

Definition twoPlayed : State * Rng :=
  playRound twoSongs
    (playRound twoSongs (run twoSongs (initial, sample_tape) [ClickStart])).

(* ------------------------------------------------------------------------- *)
(** ** Hints *)

Definition DOT : codeunit := 46%N.

(** [s.indexOf(c)] for a string [c] of one unit: the first index of the
    unit, [None] for -1. *)
Fixpoint indexOf (c : codeunit) (s : jsstring) : option nat :=
  match s with
  | [] => None
  | x :: s' => if N.eqb x c then Some 0 else option_map S (indexOf c s')
  end.

(** [getHintText(song)], which reads [currentMode]. *)
Definition getHintText (currentMode : string) (song : option Song) : jsstring :=
  match song with
  | None => []
  | Some song =>
      if String.eqb currentMode MODES.FACTS then
        if truthy (region song)
        then js "This species is found in: " ++ region song ++ js "."
        else js "Think about where this insect might live."
      else
        let fact := fact song in
        match indexOf DOT fact with
        | Some idx => firstn (idx + 1) fact
        | None =>
            if truthy fact then fact
            else js "Listen / look again and pay attention to the patterns."
        end
  end.

(* ------------------------------------------------------------------------- *)
(** ** Occurrences of a redaction target *)

(** The literal [t] matches in [text] at index [i] under the [i] flag. *)
Definition occurs_at (canonicalize : codeunit -> codeunit)
    (t text : jsstring) (i : nat) : bool :=
  matches_literal canonicalize t (skipn i text).

Definition occurs (canonicalize : codeunit -> codeunit)
    (t text : jsstring) : bool :=
  existsb (occurs_at canonicalize t text) (seq 0 (List.length text)).

(** No target of the song occurs in its fact. *)
Definition mentions_no_target (canonicalize : codeunit -> codeunit)
    (toLowerCase : jsstring -> jsstring) (song : Song) : bool :=
  forallb (fun t => negb (truthy t && occurs canonicalize t (fact song)))
    (redactTargets toLowerCase song).

(** A song whose fact mentions none of its redaction targets. *)
Definition quietSong : Song :=
  mkSong (js "Honey Bee") (js "Apis mellifera") (js "Europe")
    (js "It hums on warm days. Workers dance to point others to food.").

(* ------------------------------------------------------------------------- *)
(** ** Objects used as maps *)

(** A plain object used as a map from strings is the list of its own
    properties in creation order.  A lookup [o[k]] of the source also
    finds what [Object.prototype] holds under the names below; for other
    keys it finds own properties only, and the statements about such
    objects are for those keys. *)
Definition objectPrototypeKeys : list jsstring :=
  map js ["constructor"; "hasOwnProperty"; "isPrototypeOf";
          "propertyIsEnumerable"; "toLocaleString"; "toString"; "valueOf";
          "__proto__"; "__defineGetter__"; "__defineSetter__";
          "__lookupGetter__"; "__lookupSetter__"]%string.

Definition plainKey (k : jsstring) : bool :=
  negb (existsb (jseqb k) objectPrototypeKeys).

(** A key that is an array index: a canonical decimal numeral below
    2^32 - 1.  [Object.entries] lists these first, in increasing order,
    and the other keys after them in creation order. *)
Definition is_digit (c : codeunit) : bool := N.leb 48 c && N.leb c 57.

Fixpoint decimal_value (acc : N) (s : jsstring) : option N :=
  match s with
  | [] => Some acc
  | c :: s' =>
      if is_digit c then decimal_value (acc * 10 + (c - 48)) s' else None
  end.

Definition arrayIndex (k : jsstring) : option N :=
  match k with
  | [] => None
  | c :: rest =>
      if N.eqb c 48 && truthy rest then None
      else match decimal_value 0 k with
           | Some v => if N.ltb v 4294967295 then Some v else None
           | None => None
           end
  end.

Section ObjectEntries.
Variable V : Type.

Fixpoint insert_index (e : N * (jsstring * V)) (l : list (N * (jsstring * V)))
    : list (N * (jsstring * V)) :=
  match l with
  | [] => [e]
  | x :: l' => if N.leb (fst e) (fst x) then e :: x :: l'
               else x :: insert_index e l'
  end.

Definition indexed (o : list (jsstring * V)) : list (N * (jsstring * V)) :=
  flat_map (fun e => match arrayIndex (fst e) with
                     | Some v => [(v, e)]
                     | None => []
                     end) o.

Definition named (o : list (jsstring * V)) : list (jsstring * V) :=
  filter (fun e => match arrayIndex (fst e) with
                   | Some _ => false
                   | None => true
                   end) o.

(** [Object.entries(o)] *)
Definition objectEntries (o : list (jsstring * V)) : list (jsstring * V) :=
  map snd (fold_right insert_index [] (indexed o)) ++ named o.
End ObjectEntries.

Arguments insert_index {V} e l.
Arguments indexed {V} o.
Arguments named {V} o.
Arguments objectEntries {V} o.

(* ------------------------------------------------------------------------- *)
(** ** Region buttons *)

Definition UNKNOWN_REGION : jsstring := js "Unknown region".

(** [s.region || "Unknown region"] *)
Definition regionKey (s : Song) : jsstring :=
  if truthy (region s) then region s else UNKNOWN_REGION.

(** [counts[r] = (counts[r] || 0) + 1] *)
Fixpoint bump (r : jsstring) (counts : list (jsstring * nat))
    : list (jsstring * nat) :=
  match counts with
  | [] => [(r, 1)]
  | (k, n) :: rest =>
      if jseqb k r then (k, S n) :: rest else (k, n) :: bump r rest
  end.

(** The [counts] object of [buildRegionButtons] after the [forEach]. *)
Definition regionCounts (SONGS : list Song) : list (jsstring * nat) :=
  fold_left (fun counts s => bump (regionKey s) counts) SONGS [].

(** The buttons that [buildRegionButtons] adds after the All-regions
    button: the name that a click sets as [currentRegion], and the count
    in the label. *)
Definition regionButtons (SONGS : list Song) : list (jsstring * nat) :=
  filter (fun e => 5 <? snd e) (objectEntries (regionCounts SONGS)).

(** The number of songs that are counted under [name]. *)
Definition countKey (name : jsstring) (SONGS : list Song) : nat :=
  List.length (filter (fun s => jseqb (regionKey s) name) SONGS).

(** The count under a key, 0 when the object has no such property. *)
Fixpoint getCount (k : jsstring) (counts : list (jsstring * nat)) : nat :=
  match counts with
  | [] => 0
  | (k', n) :: rest => if jseqb k' k then n else getCount k rest
  end.

(** An object of counts: no key twice, no count 0. *)
Definition countsOk (counts : list (jsstring * nat)) : Prop :=
  NoDup (map fst counts) /\ Forall (fun e => 0 < snd e) counts.

(** The region names of a catalog are keys that find own properties. *)
Definition plainRegions (SONGS : list Song) : Prop :=
  Forall (fun s => plainKey (regionKey s) = true) SONGS.

(** A catalog of six species without a region. *)
Definition regionless : list Song :=
  map (fun n => mkSong (js n) (js "Genus species") [] (js "It sings."))
    ["Ant"; "Bee"; "Fly"; "Gnat"; "Moth"; "Wasp"]%string.

(** A catalog of six species of one region and one of another. *)
Definition sixOfOne : list Song :=
  map (fun n => mkSong (js n) (js "Genus species") (js "Europe")
                  (js "It sings."))
    ["Ant"; "Bee"; "Fly"; "Gnat"; "Moth"; "Wasp"]%string
  ++ [mkSong (js "Flea") (js "Genus species") (js "Asia") (js "It jumps.")].

(* ------------------------------------------------------------------------- *)
(** ** Sessions and plays *)

(** What the session songs and the answer buttons of every reachable
    state satisfy, for the catalog [SONGS]. *)
Record SessionInv (SONGS : list Song) (st : State) : Prop := {
  sess_catalog : incl (sessionSongs st) SONGS;
  sess_length : List.length (sessionSongs st) <= TOTAL_ROUNDS;
  sess_size : List.length (sessionSongs st) <= List.length SONGS;
  sess_rounds : roundsAnswered st <= List.length (sessionSongs st);
  sess_buttons : List.length (answerButtons st) <= 4;
  sess_buttons_catalog : incl (answerButtons st) SONGS;
  sess_target :
    forall cur, currentSong st = Some cur ->
      In cur (sessionSongs st) /\
      exists b, In b (answerButtons st) /\ commonName b = commonName cur
}.

(** One round as a player goes through it: some wrong guesses, the right
    answer, then Next. *)
Definition playRoundWith (SONGS : list Song) (w : State * Rng)
    (r : list Song * Song) : State * Rng :=
  goToNextRound SONGS
    (handleAnswer (guesses (fst w) (fst r)) (Some (snd r))) (snd w).

Definition play (SONGS : list Song) (w : State * Rng)
    (rounds : list (list Song * Song)) : State * Rng :=
  fold_left (playRoundWith SONGS) rounds w.

(** In each round of the play the guesses are wrong for the target of
    the round and the answer is right for it. *)
Fixpoint validPlay (SONGS : list Song) (w : State * Rng)
    (rounds : list (list Song * Song)) : Prop :=
  match rounds with
  | [] => True
  | r :: rest =>
      (exists cur, currentSong (fst w) = Some cur /\
                   Forall (wrong_for cur) (fst r) /\
                   commonName (snd r) = commonName cur) /\
      validPlay SONGS (playRoundWith SONGS w r) rest
  end.

(** The rounds of a play that were answered without a wrong guess. *)
Definition firstTries (rounds : list (list Song * Song)) : nat :=
  List.length (filter (fun r => match fst r with [] => true | _ => false end)
                 rounds).

(** The catalog entry at an index. *)
Definition entry (i : nat) : Song := nth i SONGS_DATA (mkSong [] [] [] []).

(** A play of the game of [started]: a miss in rounds 1 and 4. *)
Definition samplePlay : list (list Song * Song) :=
  [ ([swampCicada], entry 6); ([], entry 3); ([], entry 0);
    ([entry 0; entry 1], entry 5); ([], entry 2) ].

(* ------------------------------------------------------------------------- *)
(** ** Analytics.js *)

(** The counters that Analytics.js keeps in [stats].  The date
    [firstVisitAt] is left out; [saveStats], which writes the counters to
    the browser's storage and redraws the panel, leaves them as they
    are.  The objects [modeStats], [regionStats] and [referrers] are
    maps in the sense of [plainKey]. *)
Module Analytics.

Record ModeStats := mkModeStats {
  m_gamesStarted : nat;
  m_gamesCompleted : nat;
  m_totalScore : nat;
  m_totalRounds : nat
}.

Record RegionStats := mkRegionStats {
  r_gamesStarted : nat;
  r_gamesCompleted : nat;
  r_totalScore : nat;
  r_totalRounds : nat;
  r_chosenCount : nat
}.

Record Stats := mkStats {
  pageViews : nat;
  gamesStarted : nat;
  gamesCompleted : nat;
  modeStats : list (jsstring * ModeStats);
  regionStats : list (jsstring * RegionStats);
  referrers : list (jsstring * nat)
}.

Definition createEmptyStats : Stats :=
  {| pageViews := 0; gamesStarted := 0; gamesCompleted := 0;
     modeStats := []; regionStats := []; referrers := [] |}.

Section Maps.
Variable V : Type.

(** [o[k]] *)
Fixpoint lookup (k : jsstring) (o : list (jsstring * V)) : option V :=
  match o with
  | [] => None
  | (k', v) :: rest => if jseqb k' k then Some v else lookup k rest
  end.

(** [if (!o[k]) o[k] = fresh] *)
Fixpoint ensure (k : jsstring) (fresh : V) (o : list (jsstring * V))
    : list (jsstring * V) :=
  match o with
  | [] => [(k, fresh)]
  | (k', v) :: rest =>
      if jseqb k' k then (k', v) :: rest else (k', v) :: ensure k fresh rest
  end.

(** An assignment to fields of the object [o[k]]. *)
Fixpoint update (k : jsstring) (f : V -> V) (o : list (jsstring * V))
    : list (jsstring * V) :=
  match o with
  | [] => []
  | (k', v) :: rest =>
      if jseqb k' k then (k', f v) :: rest else (k', v) :: update k f rest
  end.
End Maps.

Arguments lookup {V} k o.
Arguments ensure {V} k fresh o.
Arguments update {V} k f o.

Definition ALL_REGIONS : jsstring := js "All regions".

(** [regionName || "All regions"] *)
Definition regKeyOf (regionName : jsstring) : jsstring :=
  if truthy regionName then regionName else ALL_REGIONS.

Definition setModeStats (f : list (jsstring * ModeStats) ->
                             list (jsstring * ModeStats)) (s : Stats) : Stats :=
  {| pageViews := pageViews s; gamesStarted := gamesStarted s;
     gamesCompleted := gamesCompleted s;
     modeStats := f (modeStats s); regionStats := regionStats s;
     referrers := referrers s |}.

Definition setRegionStats (f : list (jsstring * RegionStats) ->
                               list (jsstring * RegionStats)) (s : Stats)
    : Stats :=
  {| pageViews := pageViews s; gamesStarted := gamesStarted s;
     gamesCompleted := gamesCompleted s;
     modeStats := modeStats s; regionStats := f (regionStats s);
     referrers := referrers s |}.

Definition ensureModeStats (mode : jsstring) : Stats -> Stats :=
  setModeStats (ensure mode (mkModeStats 0 0 0 0)).

Definition ensureRegionStats (regionName : jsstring) : Stats -> Stats :=
  setRegionStats (ensure (regKeyOf regionName) (mkRegionStats 0 0 0 0 0)).

(** [recordPageView()], given what [new URL(document.referrer).host]
    gives: [None] when the referrer is empty or is no URL. *)
Definition recordPageView (host : option jsstring) (s : Stats) : Stats :=
  let s1 :=
    {| pageViews := S (pageViews s); gamesStarted := gamesStarted s;
       gamesCompleted := gamesCompleted s;
       modeStats := modeStats s; regionStats := regionStats s;
       referrers := referrers s |} in
  match host with
  | None => s1
  | Some h =>
      let host := if truthy h then h else js "unknown" in
      {| pageViews := pageViews s1; gamesStarted := gamesStarted s1;
         gamesCompleted := gamesCompleted s1;
         modeStats := modeStats s1; regionStats := regionStats s1;
         referrers := update host S (ensure host 0 (referrers s1)) |}
  end.

Definition recordGameStarted (mode regionName : jsstring) (s : Stats) : Stats :=
  let regKey := regKeyOf regionName in
  let s1 :=
    {| pageViews := pageViews s; gamesStarted := S (gamesStarted s);
       gamesCompleted := gamesCompleted s;
       modeStats := modeStats s; regionStats := regionStats s;
       referrers := referrers s |} in
  let s2 :=
    setModeStats
      (update mode (fun ms =>
         mkModeStats (S (m_gamesStarted ms)) (m_gamesCompleted ms)
           (m_totalScore ms) (m_totalRounds ms)))
      (ensureModeStats mode s1) in
  setRegionStats
    (update (regKeyOf regKey) (fun rs =>
       mkRegionStats (S (r_gamesStarted rs)) (r_gamesCompleted rs)
         (r_totalScore rs) (r_totalRounds rs) (r_chosenCount rs)))
    (ensureRegionStats regKey s2).

Definition recordGameCompleted (mode regionName : jsstring)
    (score roundsTotal : nat) (s : Stats) : Stats :=
  let regKey := regKeyOf regionName in
  let s1 :=
    {| pageViews := pageViews s; gamesStarted := gamesStarted s;
       gamesCompleted := S (gamesCompleted s);
       modeStats := modeStats s; regionStats := regionStats s;
       referrers := referrers s |} in
  let s2 :=
    setModeStats
      (update mode (fun ms =>
         mkModeStats (m_gamesStarted ms) (S (m_gamesCompleted ms))
           (m_totalScore ms + score) (m_totalRounds ms + roundsTotal)))
      (ensureModeStats mode s1) in
  setRegionStats
    (update (regKeyOf regKey) (fun rs =>
       mkRegionStats (r_gamesStarted rs) (S (r_gamesCompleted rs))
         (r_totalScore rs + score) (r_totalRounds rs + roundsTotal)
         (r_chosenCount rs)))
    (ensureRegionStats regKey s2).

Definition recordRegionChoice (regionName : jsstring) (s : Stats) : Stats :=
  let regKey := regKeyOf regionName in
  setRegionStats
    (update (regKeyOf regKey) (fun rs =>
       mkRegionStats (r_gamesStarted rs) (r_gamesCompleted rs)
         (r_totalScore rs) (r_totalRounds rs) (S (r_chosenCount rs))))
    (ensureRegionStats regKey s).

(** A call of the API of [window.InsectGameAnalytics]. *)
Inductive Call :=
| PageView (host : option jsstring)
| GameStarted (mode regionName : jsstring)
| GameCompleted (mode regionName : jsstring) (score roundsTotal : nat)
| RegionChoice (regionName : jsstring).

Definition call (s : Stats) (c : Call) : Stats :=
  match c with
  | PageView host => recordPageView host s
  | GameStarted mode regionName => recordGameStarted mode regionName s
  | GameCompleted mode regionName score roundsTotal =>
      recordGameCompleted mode regionName score roundsTotal s
  | RegionChoice regionName => recordRegionChoice regionName s
  end.

Definition calls (cs : list Call) (s : Stats) : Stats := fold_left call cs s.

(** The sum of a counter over the entries of an object. *)
Definition total {V : Type} (counter : V -> nat) (o : list (jsstring * V))
    : nat :=
  list_sum (map (fun e => counter (snd e)) o).

(** What the calls of a list add up to. *)
Definition countStarted (cs : list Call) : nat :=
  List.length (filter (fun c => match c with GameStarted _ _ => true
                                        | _ => false end) cs).

Definition countCompleted (cs : list Call) : nat :=
  List.length (filter (fun c => match c with GameCompleted _ _ _ _ => true
                                        | _ => false end) cs).

Definition countChosen (cs : list Call) : nat :=
  List.length (filter (fun c => match c with RegionChoice _ => true
                                        | _ => false end) cs).

Definition countViewed (cs : list Call) : nat :=
  List.length (filter (fun c => match c with PageView _ => true
                                        | _ => false end) cs).

Definition sumScores (cs : list Call) : nat :=
  list_sum (map (fun c => match c with GameCompleted _ _ s _ => s
                                  | _ => 0 end) cs).

Definition sumRounds (cs : list Call) : nat :=
  list_sum (map (fun c => match c with GameCompleted _ _ _ r => r
                                  | _ => 0 end) cs).

(** The counters agree with each other: no key twice in an object, and
    the games started and completed, the scores and the rounds add up to
    the same over the modes and over the regions. *)
Record Ledger (s : Stats) : Prop := {
  led_modes : NoDup (map fst (modeStats s));
  led_regions : NoDup (map fst (regionStats s));
  led_referrers : NoDup (map fst (referrers s));
  led_started_mode : total m_gamesStarted (modeStats s) = gamesStarted s;
  led_started_region : total r_gamesStarted (regionStats s) = gamesStarted s;
  led_completed_mode :
    total m_gamesCompleted (modeStats s) = gamesCompleted s;
  led_completed_region :
    total r_gamesCompleted (regionStats s) = gamesCompleted s;
  led_score :
    total m_totalScore (modeStats s) = total r_totalScore (regionStats s);
  led_rounds :
    total m_totalRounds (modeStats s) = total r_totalRounds (regionStats s)
}.

(** The keys of a call find own properties only. *)
Definition plainCall (c : Call) : Prop :=
  match c with
  | PageView (Some h) => plainKey (if truthy h then h else js "unknown") = true
  | PageView None => True
  | GameStarted mode regionName | GameCompleted mode regionName _ _ =>
      plainKey mode = true /\ plainKey (regKeyOf regionName) = true
  | RegionChoice regionName => plainKey (regKeyOf regionName) = true
  end.
End Analytics.

(* ------------------------------------------------------------------------- *)
(** ** The calls that game.js makes *)

(** [getActiveRegionName()] *)
Definition getActiveRegionName (st : State) : jsstring :=
  match currentRegion st with
  | Some n => if truthy n then n else Analytics.ALL_REGIONS
  | None => Analytics.ALL_REGIONS
  end.

Section GameCalls.
Variable SONGS : list Song.

(** The call at the end of [startNewGame()], which the early [return]
    on an empty pool skips. *)
Definition startCalls (st : State) : list Analytics.Call :=
  match getRegionPool SONGS (currentRegion st) with
  | [] => []
  | _ :: _ =>
      [Analytics.GameStarted (js (currentMode st)) (getActiveRegionName st)]
  end.

(** The state in which a handler calls [startNewGame()]. *)
Definition beforeStart (st : State) (e : Event) : State :=
  match e with
  | ClickStart =>
      {| currentMode := MODES.SPECTRO; currentRegion := currentRegion st;
         sessionSongs := sessionSongs st; sessionIndex := sessionIndex st;
         currentSong := currentSong st;
         roundsAnswered := roundsAnswered st; scoreCorrect := scoreCorrect st;
         hasAnswered := hasAnswered st; hadWrongGuess := hadWrongGuess st;
         answerButtons := answerButtons st;
         nextBtnDisabled := nextBtnDisabled st;
         endOverlayHidden := endOverlayHidden st |}
  | ClickMode m =>
      {| currentMode := m; currentRegion := currentRegion st;
         sessionSongs := sessionSongs st; sessionIndex := sessionIndex st;
         currentSong := currentSong st;
         roundsAnswered := roundsAnswered st; scoreCorrect := scoreCorrect st;
         hasAnswered := hasAnswered st; hadWrongGuess := hadWrongGuess st;
         answerButtons := answerButtons st;
         nextBtnDisabled := nextBtnDisabled st;
         endOverlayHidden := endOverlayHidden st |}
  | ClickRegion r =>
      {| currentMode := currentMode st; currentRegion := r;
         sessionSongs := sessionSongs st; sessionIndex := sessionIndex st;
         currentSong := currentSong st;
         roundsAnswered := roundsAnswered st; scoreCorrect := scoreCorrect st;
         hasAnswered := hasAnswered st; hadWrongGuess := hadWrongGuess st;
         answerButtons := answerButtons st;
         nextBtnDisabled := nextBtnDisabled st;
         endOverlayHidden := endOverlayHidden st |}
  | ClickPlayAgain => hideEndOverlay st
  | _ => st
  end.

(** The calls of a handler, in order: [recordRegionChoice] in the click
    handler of a region button, [recordGameStarted] in [startNewGame],
    [recordGameCompleted] in the [showEndOverlay] of [handleAnswer]. *)
Definition stepCalls (st : State) (e : Event) : list Analytics.Call :=
  match e with
  | ClickAnswer o =>
      if answersCorrectly st o && gameComplete (handleAnswer st o)
      then [Analytics.GameCompleted (js (currentMode st))
              (getActiveRegionName st)
              (scoreCorrect (handleAnswer st o)) TOTAL_ROUNDS]
      else []
  | ClickNext | ClickChange => []
  | ClickStart | ClickPlayAgain | ClickMode _ => startCalls (beforeStart st e)
  | ClickRegion r =>
      Analytics.RegionChoice
        (match r with Some n => n | None => Analytics.ALL_REGIONS end)
      :: startCalls (beforeStart st e)
  end.

(** The calls of a run of the page. *)
Fixpoint runCalls (w : State * Rng) (es : list Event) : list Analytics.Call :=
  match es with
  | [] => []
  | e :: es' => stepCalls (fst w) e ++ runCalls (step SONGS w e) es'
  end.
End GameCalls.

(** A game is under way: it has session songs and is not complete. *)
Definition inProgress (st : State) : nat :=
  if gameComplete st then 0
  else match sessionSongs st with [] => 0 | _ :: _ => 1 end.

(** Calls for a test: two games started, one of them completed. *)
Definition sampleCalls : list Analytics.Call :=
  [ Analytics.PageView (Some (js "example.org"));
    Analytics.GameStarted (js "facts") (js "All regions");
    Analytics.RegionChoice (js "Europe");
    Analytics.GameStarted (js "facts") (js "Europe");
    Analytics.GameCompleted (js "facts") (js "Europe") 3 5 ].


(** A report of a completed game is within bounds: a score of at most
    the rounds, and the rounds of a game. *)
Definition boundedCall (c : Analytics.Call) : Prop :=
  match c with
  | Analytics.GameCompleted _ _ score roundsTotal =>
      score <= roundsTotal /\ roundsTotal = TOTAL_ROUNDS
  | _ => True
  end.

(* ------------------------------------------------------------------------- *)
(** ** Tapes for the shuffle *)

(** The keys [from/d, (from+1)/d, ...], [n] of them. *)
Definition unitKeys (d : positive) (from n : nat) : list Q :=
  map (fun i => Z.of_nat i # d) (seq from n).

(** The tape that starts with the keys [rs] and goes on with 0. *)
Definition tapeOf (rs : list Q) : Rng := fun i => nth i rs 0%Q.

(** A value that [Math.random()] can return: in the range [0, 1). *)
Definition inUnit (r : Q) : Prop := (0 <= r)%Q /\ (r < 1)%Q.

(* ------------------------------------------------------------------------- *)
(** ** The rounds that [getSummary] divides by *)

(** [ms.totalRounds || (ms.gamesCompleted * 5) || 0] in [getSummary()]. *)
Definition summaryRounds (totalRounds gamesCompleted : nat) : nat :=
  if negb (totalRounds =? 0) then totalRounds
  else if negb (gamesCompleted * 5 =? 0) then gamesCompleted * 5
  else 0.

(** An entry whose rounds are those of its completed games, and whose
    score is within them. *)
Definition modeEntryOk (ms : Analytics.ModeStats) : Prop :=
  Analytics.m_totalRounds ms = TOTAL_ROUNDS * Analytics.m_gamesCompleted ms /\
  Analytics.m_totalScore ms <= Analytics.m_totalRounds ms.

Definition regionEntryOk (rs : Analytics.RegionStats) : Prop :=
  Analytics.r_totalRounds rs = TOTAL_ROUNDS * Analytics.r_gamesCompleted rs /\
  Analytics.r_totalScore rs <= Analytics.r_totalRounds rs.

Definition entriesOk (s : Analytics.Stats) : Prop :=
  (forall mode ms, In (mode, ms) (Analytics.modeStats s) -> modeEntryOk ms) /\
  (forall reg rs, In (reg, rs) (Analytics.regionStats s) -> regionEntryOk rs).

(* ========================================================================= *)
(** * Properties *)

(* ------------------------------------------------------------------------- *)
(** ** Strings *)

Lemma jseqb_eq (a b : jsstring) : jseqb a b = true <-> a = b.
Proof.
  revert b; induction a as [|x a IH]; intros [|y b]; simpl;
    try (split; [discriminate | congruence]); try tauto.
  rewrite andb_true_iff, N.eqb_eq, IH. split.
  - intros [-> ->]; reflexivity.
  - intros E; injection E; auto.
Qed.

Lemma jseqb_refl (a : jsstring) : jseqb a a = true.
Proof. apply jseqb_eq; reflexivity. Qed.

Lemma jseqb_neq (a b : jsstring) : jseqb a b = false <-> a <> b.
Proof.
  rewrite <- jseqb_eq. destruct (jseqb a b); split; congruence.
Qed.

(* ------------------------------------------------------------------------- *)
(** ** The shuffle rearranges its input *)

Section ShuffleFacts.
Variable A : Type.

Lemma sort_insert_perm (x : A * Q) (l : list (A * Q)) :
  Permutation (sort_insert x l) (x :: l).
Proof.
  induction l as [|y l IH]; simpl; [reflexivity|].
  destruct (key_le x y); [reflexivity|].
  rewrite IH. apply perm_swap.
Qed.

Lemma sort_by_key_perm (l : list (A * Q)) : Permutation (sort_by_key l) l.
Proof.
  induction l as [|x l IH]; simpl; [reflexivity|].
  rewrite sort_insert_perm. apply perm_skip, IH.
Qed.

Lemma map_fst_combine (arr : list A) (rs : list Q) :
  List.length arr <= List.length rs -> map fst (combine arr rs) = arr.
Proof.
  revert rs; induction arr as [|a arr IH]; intros [|r rs] H; simpl in *;
    try reflexivity; try lia.
  f_equal. apply IH. lia.
Qed.

Lemma shuffle_with_perm (rs : list Q) (arr : list A) :
  List.length arr <= List.length rs -> Permutation (shuffle_with rs arr) arr.
Proof.
  intros H. unfold shuffle_with.
  rewrite (Permutation_map fst (sort_by_key_perm (combine arr rs))).
  rewrite map_fst_combine by exact H. reflexivity.
Qed.

Lemma draw_length (n : nat) (rng : Rng) : List.length (fst (draw n rng)) = n.
Proof. unfold draw; simpl. rewrite length_map, length_seq. reflexivity. Qed.

Lemma shuffle_perm (arr : list A) (rng : Rng) :
  Permutation (fst (shuffle arr rng)) arr.
Proof.
  unfold shuffle, draw; simpl. apply shuffle_with_perm.
  rewrite length_map, length_seq. lia.
Qed.

Lemma shuffle_length (arr : list A) (rng : Rng) :
  List.length (fst (shuffle arr rng)) = List.length arr.
Proof. apply Permutation_length, shuffle_perm. Qed.

Lemma shuffle_in (arr : list A) (rng : Rng) (x : A) :
  In x (fst (shuffle arr rng)) <-> In x arr.
Proof.
  split; apply Permutation_in; [|symmetry]; apply shuffle_perm.
Qed.

Lemma shuffle_NoDup (arr : list A) (rng : Rng) :
  NoDup arr -> NoDup (fst (shuffle arr rng)).
Proof.
  intros H. eapply Permutation_NoDup; [symmetry; apply shuffle_perm | exact H].
Qed.

(** A prefix of a list without repetition has none. *)
Lemma NoDup_prefix (n : nat) (l : list A) : NoDup l -> NoDup (firstn n l).
Proof.
  intros H. rewrite <- (firstn_skipn n l) in H.
  eapply NoDup_app_remove_r; exact H.
Qed.

Lemma In_prefix (n : nat) (l : list A) (x : A) : In x (firstn n l) -> In x l.
Proof.
  intros H. rewrite <- (firstn_skipn n l). apply in_or_app; left; exact H.
Qed.
End ShuffleFacts.

(* ------------------------------------------------------------------------- *)
(** ** Which orders the shuffle can give *)

Section ShuffleOrders.
Variable A : Type.

(** Equal keys leave the order as it is: the sort is stable. *)
Lemma sort_by_key_ties (k : Q) (l : list (A * Q)) :
  Forall (fun p => snd p = k) l -> sort_by_key l = l.
Proof.
  induction 1 as [|x l Hx Hl IH]; [reflexivity|].
  cbn [sort_by_key]. rewrite IH. destruct Hl as [|y l Hy Hl]; [reflexivity|].
  cbn [sort_insert]. unfold key_le. rewrite Hx, Hy.
  replace (Qle_bool k k) with true; [reflexivity|].
  symmetry. apply Qle_bool_iff, Qle_refl.
Qed.

Lemma shuffle_with_ties (k : Q) (arr : list A) :
  shuffle_with (repeat k (List.length arr)) arr = arr.
Proof.
  unfold shuffle_with. rewrite (sort_by_key_ties k).
  - apply map_fst_combine. rewrite repeat_length. lia.
  - apply Forall_forall. intros [a r] H. apply in_combine_r in H.
    apply repeat_spec in H. exact H.
Qed.

Lemma sort_insert_between (x : A * Q) (t1 t2 : list (A * Q)) :
  Forall (fun y => key_lt y x) t1 -> Forall (key_lt x) t2 ->
  sort_insert x (t1 ++ t2) = t1 ++ x :: t2.
Proof.
  intros H1 H2. induction H1 as [|y t1 Hy _ IH]; cbn [app sort_insert].
  - destruct H2 as [|y t2 Hy _]; [reflexivity|].
    cbn [sort_insert]. unfold key_lt, key_le in *.
    replace (Qle_bool (snd x) (snd y)) with true; [reflexivity|].
    symmetry. apply Qle_bool_iff. apply Qlt_le_weak, Qnot_le_lt.
    intros H. apply Qle_bool_iff in H. congruence.
  - unfold key_lt in Hy. rewrite Hy, IH. reflexivity.
Qed.

(** A list in strictly increasing key order is what sorting any of its
    rearrangements gives. *)
Lemma sort_by_key_sorted (l : list (A * Q)) : forall t,
  StronglySorted key_lt t -> Permutation l t -> sort_by_key l = t.
Proof.
  induction l as [|x l IH]; intros t St P.
  - apply Permutation_nil in P. subst; reflexivity.
  - assert (Hin : In x t) by (apply (Permutation_in _ P); left; reflexivity).
    apply in_split in Hin. destruct Hin as (t1 & t2 & ->).
    apply Permutation_cons_app_inv in P.
    assert (St1 : StronglySorted key_lt (t1 ++ t2) /\
                  Forall (fun y => key_lt y x) t1 /\ Forall (key_lt x) t2).
    { clear -St. induction t1 as [|y t1 IH]; cbn [app] in *.
      - inversion St; subst. auto.
      - inversion St as [|? ? St' Hy]; subst.
        destruct (IH St') as (I1 & I2 & I3).
        apply Forall_app in Hy. destruct Hy as [Hy1 Hy2].
        inversion Hy2; subst.
        repeat split; auto.
        constructor; [exact I1|]. apply Forall_app; split; assumption. }
    destruct St1 as (S1 & F1 & F2).
    cbn [sort_by_key]. rewrite (IH _ S1 P). apply sort_insert_between; assumption.
Qed.

Lemma ranks_sorted (l : list A) : forall from,
  StronglySorted key_lt (combine l (ranks from (List.length l))).
Proof.
  induction l as [|a l IH]; intros from; [constructor|].
  cbn [List.length ranks seq map combine]. constructor; [apply IH|].
  apply Forall_forall. intros [b r] H. apply in_combine_r in H.
  apply in_map_iff in H. destruct H as (i & <- & Hi). apply in_seq in Hi.
  unfold key_lt, key_le; cbn [snd].
  destruct (Qle_bool _ _) eqn:E; [|reflexivity].
  apply Qle_bool_iff in E. unfold Qle, inject_Z in E. cbn in E. lia.
Qed.

(** Every rearrangement of the input is the result for some keys. *)
Lemma shuffle_with_reaches (arr arr' : list A) :
  Permutation arr arr' ->
  exists rs, List.length rs = List.length arr /\ shuffle_with rs arr = arr'.
Proof.
  intros P.
  set (t := combine arr' (ranks 0 (List.length arr'))).
  assert (Ft : map fst t = arr').
  { apply map_fst_combine. unfold ranks. rewrite length_map, length_seq. lia. }
  rewrite <- Ft in P. apply Permutation_map_inv in P.
  destruct P as (l & -> & P).
  exists (map snd l). split; [rewrite !length_map; reflexivity|].
  unfold shuffle_with.
  replace (combine (map fst l) (map snd l)) with l.
  - rewrite (sort_by_key_sorted l t); [exact Ft | apply ranks_sorted|].
    symmetry; exact P.
  - clear. induction l as [|[a r] l IH]; cbn; [reflexivity | f_equal; exact IH].
Qed.
End ShuffleOrders.

(* ------------------------------------------------------------------------- *)
(** ** Answer choices *)

Section ChoicesFacts.
Variable SONGS : list Song.

Lemma buildChoices_perm region correctName rng :
  Permutation (fst (buildChoices SONGS region correctName rng))
    (correctName ::
     firstn 3 (fst (shuffle (othersOf (poolNames SONGS region) correctName) rng))).
Proof.
  unfold buildChoices, othersOf.
  destruct (shuffle (filter _ (poolNames SONGS region)) rng) as [sh rng1].
  cbn [fst]. apply shuffle_perm.
Qed.

Lemma othersOf_in pool c n : In n (othersOf pool c) <-> In n pool /\ n <> c.
Proof.
  unfold othersOf. rewrite filter_In, negb_true_iff, jseqb_neq. tauto.
Qed.

(** Taking the target out of a pool that holds it once. *)
Lemma pool_split pool c :
  NoDup pool -> In c pool -> Permutation pool (c :: othersOf pool c).
Proof.
  induction pool as [|x pool IH]; intros ND HIn; [destruct HIn|].
  inversion ND as [|? ? Hx ND']; subst.
  unfold othersOf; simpl. destruct (jseqb x c) eqn:E; simpl.
  - apply jseqb_eq in E; subst x. apply perm_skip.
    fold (othersOf pool c).
    assert (F : forall n, In n pool -> negb (jseqb n c) = true).
    { intros n Hn. apply negb_true_iff, jseqb_neq. intros ->. contradiction. }
    unfold othersOf. clear -F. induction pool as [|y pool IH]; simpl; auto.
    rewrite F by (left; reflexivity). apply perm_skip, IH.
    intros n Hn; apply F; right; exact Hn.
  - apply jseqb_neq in E. destruct HIn as [->|HIn]; [congruence|].
    fold (othersOf pool c). rewrite perm_swap. apply perm_skip.
    apply IH; assumption.
Qed.
End ChoicesFacts.

Lemma distinctb_NoDup (l : list jsstring) : distinctb l = true -> NoDup l.
Proof.
  induction l as [|x l IH]; simpl; intros H; constructor;
    apply andb_true_iff in H; destruct H as [H1 H2]; auto.
  intros HIn. apply negb_true_iff in H1.
  assert (existsb (jseqb x) l = true); [|congruence].
  apply existsb_exists. exists x; split; [exact HIn | apply jseqb_refl].
Qed.

(** C3.  For a round whose target's name is in the active region pool of
    common names, and that pool has no repeated name, [buildChoices]
    returns min(4, pool size) options; the target's name is among them
    exactly once; no option is repeated; every option is a name of the
    pool; and a pool of at most four names (so also one of fewer than
    four) is used whole. *)
Theorem buildChoices_options
    (SONGS : list Song) (region : option jsstring) (target : Song) (rng : Rng) :
  NoDup (poolNames SONGS region) ->
  In (commonName target) (poolNames SONGS region) ->
  let pool := poolNames SONGS region in
  let choices := fst (buildChoices SONGS region (commonName target) rng) in
  List.length choices = Nat.min 4 (List.length pool) /\
  count_occ jsstring_eq_dec choices (commonName target) = 1 /\
  NoDup choices /\
  incl choices pool /\
  (List.length pool <= 4 -> Permutation choices pool).
Proof.
  intros ND HIn pool choices.
  set (c := commonName target) in *.
  set (others := othersOf pool c).
  set (sh := fst (shuffle others rng)).
  assert (P : Permutation choices (c :: firstn 3 sh))
    by apply buildChoices_perm.
  assert (Psplit : Permutation pool (c :: others)) by (apply pool_split; auto).
  assert (Lsh : List.length sh = List.length others) by apply shuffle_length.
  assert (Lpool : List.length pool = S (List.length others))
    by (rewrite (Permutation_length Psplit); reflexivity).
  assert (NDo : NoDup others) by (apply NoDup_filter; exact ND).
  assert (NDw : NoDup (firstn 3 sh))
    by (apply NoDup_prefix, shuffle_NoDup; exact NDo).
  assert (Wo : forall n, In n (firstn 3 sh) -> In n others).
  { intros n Hn. apply In_prefix in Hn. apply shuffle_in in Hn. exact Hn. }
  assert (Nc : ~ In c (firstn 3 sh)).
  { intros Hc. apply Wo, othersOf_in in Hc. destruct Hc as [_ Hc]; congruence. }
  repeat split.
  - rewrite (Permutation_length P); cbn [List.length].
    rewrite length_firstn, Lsh, Lpool. lia.
  - rewrite (Permutation_count_occ jsstring_eq_dec) in P. rewrite P.
    rewrite count_occ_cons_eq by reflexivity.
    f_equal. apply count_occ_not_In. exact Nc.
  - eapply Permutation_NoDup; [symmetry; exact P|].
    constructor; assumption.
  - intros n Hn. apply (Permutation_in _ P) in Hn.
    destruct Hn as [<-|Hn]; [exact HIn|].
    apply Wo, othersOf_in in Hn. tauto.
  - intros Hle. rewrite P, Psplit. apply perm_skip.
    rewrite firstn_all2 by lia. apply shuffle_perm.
Qed.

Lemma buildChoices_options_witness :
  let pool := poolNames SONGS_DATA None in
  let choices :=
    fst (buildChoices SONGS_DATA None (commonName swampCicada) sample_tape) in
  List.length choices = Nat.min 4 (List.length pool) /\
  count_occ jsstring_eq_dec choices (commonName swampCicada) = 1 /\
  NoDup choices /\
  incl choices pool /\
  (List.length pool <= 4 -> Permutation choices pool).
Proof.
  apply (buildChoices_options SONGS_DATA None swampCicada sample_tape).
  - apply distinctb_NoDup. vm_compute. reflexivity.
  - vm_compute. right; left; reflexivity.
Defined.

(* ------------------------------------------------------------------------- *)
(** ** The handlers, field by field *)

Section HandlerFacts.
Variable SONGS : list Song.

(** What [renderRound] leaves alone. *)
Lemma renderRound_keeps (st : State) (rng : Rng) :
  let st' := fst (renderRound SONGS st rng) in
  currentMode st' = currentMode st /\
  currentRegion st' = currentRegion st /\
  sessionSongs st' = sessionSongs st /\
  sessionIndex st' = sessionIndex st /\
  roundsAnswered st' = roundsAnswered st /\
  scoreCorrect st' = scoreCorrect st /\
  endOverlayHidden st' = endOverlayHidden st.
Proof.
  unfold renderRound.
  destruct (sessionSongs st) eqn:E; [cbn; rewrite ?E; tauto|].
  destruct (nth_error (s :: l) (sessionIndex st)); [|cbn; rewrite ?E; tauto].
  destruct (renderAnswers SONGS st s0 rng); cbn; rewrite ?E; tauto.
Qed.

(** A round that [renderRound] opens. *)
Lemma renderRound_opens (st : State) (rng : Rng) (song : Song) :
  nth_error (sessionSongs st) (sessionIndex st) = Some song ->
  let st' := fst (renderRound SONGS st rng) in
  currentSong st' = Some song /\
  hasAnswered st' = false /\
  hadWrongGuess st' = false /\
  nextBtnDisabled st' = true.
Proof.
  intros H. unfold renderRound.
  destruct (sessionSongs st) eqn:E.
  - destruct (sessionIndex st); discriminate H.
  - rewrite H. destruct (renderAnswers SONGS st song rng); cbn; tauto.
Qed.

(** [startNewGame] on an empty region pool: the early [return]. *)
Lemma startNewGame_refuses (st : State) (rng : Rng) :
  getRegionPool SONGS (currentRegion st) = [] ->
  startNewGame SONGS st rng = (st, rng).
Proof. unfold startNewGame. intros ->. reflexivity. Qed.

(** [startNewGame] on a non-empty region pool. *)
Lemma startNewGame_starts (st : State) (rng : Rng) :
  getRegionPool SONGS (currentRegion st) <> [] ->
  let pool := getRegionPool SONGS (currentRegion st) in
  let st' := fst (startNewGame SONGS st rng) in
  sessionSongs st' = firstn TOTAL_ROUNDS (fst (shuffle pool rng)) /\
  currentSong st' = nth_error (sessionSongs st') 0 /\
  currentSong st' <> None /\
  sessionIndex st' = 0 /\ roundsAnswered st' = 0 /\ scoreCorrect st' = 0 /\
  hasAnswered st' = false /\ hadWrongGuess st' = false /\
  currentMode st' = currentMode st /\
  currentRegion st' = currentRegion st /\
  endOverlayHidden st' = endOverlayHidden st.
Proof.
  intros Hne pool st'. subst st'. unfold startNewGame. fold pool.
  destruct pool as [|p pool'] eqn:Ep; [contradiction|].
  destruct (shuffle (p :: pool') rng) as [sh rng1] eqn:Es.
  assert (Lsh : List.length sh = S (List.length pool')).
  { change sh with (fst (sh, rng1)). rewrite <- Es. apply shuffle_length. }
  destruct sh as [|x sh']; [discriminate Lsh|].
  match goal with |- context [renderRound SONGS ?s rng1] => set (st0 := s) end.
  assert (Hn : nth_error (sessionSongs st0) (sessionIndex st0) = Some x)
    by reflexivity.
  pose proof (renderRound_keeps st0 rng1) as K.
  pose proof (renderRound_opens st0 rng1 x Hn) as O.
  cbn zeta in K, O.
  destruct K as (K1 & K2 & K3 & K4 & K5 & K6 & K7).
  destruct O as (O1 & O2 & O3 & O4).
  rewrite K1, K2, K3, K4, K5, K6, K7, O1, O2, O3.
  cbn. repeat split; congruence.
Qed.
End HandlerFacts.

(* ------------------------------------------------------------------------- *)
(** ** What holds in every state of the page *)

Section Invariant.
Variable SONGS : list Song.

Lemma initial_inv : Inv initial.
Proof.
  constructor; cbn; unfold TOTAL_ROUNDS; try lia; try discriminate.
  intros _ H. contradiction H. reflexivity.
Qed.

Lemma hideEndOverlay_inv st : Inv st -> Inv (hideEndOverlay st).
Proof. intros [a b c d f e]; constructor; cbn; assumption. Qed.

Lemma handleAnswer_inv st o : Inv st -> Inv (handleAnswer st o).
Proof.
  intros I. pose proof I as [a b c d f e]. unfold handleAnswer.
  destruct (hasAnswered st) eqn:Eh; [exact I|].
  destruct (currentSong st) as [cur|] eqn:Ec; [|exact I].
  destruct o as [obj|]; [|exact I].
  destruct (jseqb (commonName obj) (commonName cur)); cbn [negb].
  - specialize (c eq_refl). specialize (d eq_refl).
    assert (Hi : sessionIndex st = roundsAnswered st)
      by (apply d; discriminate).
    destruct (TOTAL_ROUNDS <=? S (roundsAnswered st));
      destruct (hadWrongGuess st); cbn [negb];
      constructor; cbn; rewrite ?Ec; try lia; try discriminate.
  - destruct (hadWrongGuess st); cbn [negb]; [exact I|].
    constructor; cbn; rewrite ?Eh, ?Ec; auto.
Qed.

Lemma startNewGame_inv st rng : Inv st -> Inv (fst (startNewGame SONGS st rng)).
Proof.
  intros I.
  destruct (getRegionPool SONGS (currentRegion st)) eqn:Ep.
  - rewrite startNewGame_refuses by exact Ep. exact I.
  - assert (Hne : getRegionPool SONGS (currentRegion st) <> [])
      by (rewrite Ep; discriminate).
    destruct (startNewGame_starts SONGS st rng Hne)
      as (_ & Hc & _ & Hi & Hr & Hs & Hh & _).
    constructor; rewrite ?Hi, ?Hr, ?Hs, ?Hh; unfold TOTAL_ROUNDS;
      try lia; try discriminate; auto.
Qed.

Lemma goToNextRound_inv st rng : Inv st -> Inv (fst (goToNextRound SONGS st rng)).
Proof.
  intros I. pose proof I as [a b c d f e]. unfold goToNextRound.
  destruct (hasAnswered st) eqn:Eh; cbn [negb]; [|exact I].
  destruct (TOTAL_ROUNDS <=? roundsAnswered st) eqn:Et; [exact I|].
  apply Nat.leb_gt in Et.
  match goal with |- context [renderRound SONGS ?s rng] => set (st1 := s) end.
  destruct (sessionIndex st1 <? List.length (sessionSongs st1)) eqn:El.
  - apply Nat.ltb_lt in El.
    destruct (nth_error (sessionSongs st1) (sessionIndex st1)) as [song|] eqn:En;
      [|apply nth_error_None in En; lia].
    destruct (renderRound_keeps SONGS st1 rng) as (_ & _ & K3 & K4 & K5 & K6 & _).
    destruct (renderRound_opens SONGS st1 rng song En) as (O1 & O2 & _).
    constructor; rewrite ?K3, ?K4, ?K5, ?K6, ?O2; cbn; try lia;
      try discriminate.
    + intros _ _. destruct (e eq_refl) as [E|E]; [lia|]. cbn in El. lia.
    + intros _ _. rewrite O1. symmetry. exact En.
  - apply Nat.ltb_ge in El. cbn in El.
    constructor; cbn; rewrite ?Eh; try lia; try discriminate.
Qed.

Lemma step_inv st rng e : Inv st -> Inv (fst (step SONGS (st, rng) e)).
Proof.
  intros I. destruct e; cbn [step fst].
  - apply handleAnswer_inv; exact I.
  - apply goToNextRound_inv; exact I.
  - apply startNewGame_inv. destruct I; constructor; cbn; assumption.
  - apply startNewGame_inv, hideEndOverlay_inv; exact I.
  - apply startNewGame_inv. destruct I; constructor; cbn; assumption.
  - apply startNewGame_inv. destruct I; constructor; cbn; assumption.
  - apply hideEndOverlay_inv; exact I.
Qed.

Lemma reachable_inv st : reachable SONGS st -> Inv st.
Proof.
  induction 1 as [|st rng e _ IH]; [apply initial_inv | apply step_inv, IH].
Qed.

(** A run of the page from a reachable state ends in one. *)
Lemma run_reachable es st rng :
  reachable SONGS st -> reachable SONGS (fst (run SONGS (st, rng) es)).
Proof.
  revert st rng. induction es as [|e es IH]; intros st rng R; [exact R|].
  cbn [run fold_left].
  destruct (step SONGS (st, rng) e) as [st' rng'] eqn:E.
  apply IH. change st' with (fst (st', rng')). rewrite <- E.
  apply reach_step; exact R.
Qed.
End Invariant.

(* ------------------------------------------------------------------------- *)
(** ** Answers within a round *)

Section Answers.
Variable SONGS : list Song.

Lemma handleAnswer_wrong st cur w :
  currentSong st = Some cur -> hasAnswered st = false -> wrong_for cur w ->
  let st' := handleAnswer st (Some w) in
  currentSong st' = Some cur /\ hasAnswered st' = false /\
  hadWrongGuess st' = true /\
  scoreCorrect st' = scoreCorrect st /\
  roundsAnswered st' = roundsAnswered st /\
  sessionIndex st' = sessionIndex st /\
  nextBtnDisabled st' = nextBtnDisabled st.
Proof.
  intros Hc Hh Hw. apply jseqb_neq in Hw.
  unfold handleAnswer. rewrite Hh, Hc, Hw. cbn [negb].
  destruct (hadWrongGuess st) eqn:E; cbn; rewrite ?Hc, ?Hh, ?E; tauto.
Qed.

Lemma guesses_wrong ws : forall st cur,
  currentSong st = Some cur -> hasAnswered st = false ->
  Forall (wrong_for cur) ws ->
  let st' := guesses st ws in
  currentSong st' = Some cur /\ hasAnswered st' = false /\
  hadWrongGuess st' =
    match ws with [] => hadWrongGuess st | _ :: _ => true end /\
  scoreCorrect st' = scoreCorrect st /\
  roundsAnswered st' = roundsAnswered st /\
  sessionIndex st' = sessionIndex st /\
  nextBtnDisabled st' = nextBtnDisabled st.
Proof.
  induction ws as [|w ws IH]; intros st cur Hc Hh Hf; [cbn; tauto|].
  inversion Hf as [|? ? Hw Hf']; subst.
  destruct (handleAnswer_wrong st cur w Hc Hh Hw) as (A1 & A2 & A3 & A4 & A5 & A6 & A7).
  unfold guesses; cbn [map fold_left].
  destruct (IH _ _ A1 A2 Hf') as (B1 & B2 & B3 & B4 & B5 & B6 & B7).
  unfold guesses in *. cbn zeta in *.
  rewrite B1, B2, B3, B4, B5, B6, B7, A3, A4, A5, A6, A7.
  destruct ws; tauto.
Qed.

Lemma handleAnswer_correct st cur good :
  currentSong st = Some cur -> hasAnswered st = false ->
  commonName good = commonName cur ->
  let st' := handleAnswer st (Some good) in
  hasAnswered st' = true /\
  roundsAnswered st' = S (roundsAnswered st) /\
  scoreCorrect st' =
    (if hadWrongGuess st then scoreCorrect st else S (scoreCorrect st)) /\
  nextBtnDisabled st' = gameComplete st' /\
  endOverlayHidden st' =
    (if gameComplete st' then false else endOverlayHidden st) /\
  sessionIndex st' = sessionIndex st /\
  sessionSongs st' = sessionSongs st /\
  currentSong st' = currentSong st.
Proof.
  intros Hc Hh Hg. apply jseqb_eq in Hg.
  unfold handleAnswer, gameComplete. rewrite Hh, Hc, Hg. cbn [negb].
  destruct (TOTAL_ROUNDS <=? S (roundsAnswered st)) eqn:E;
    destruct (hadWrongGuess st); cbn -[Nat.leb]; rewrite ?E, ?Hc; tauto.
Qed.

(** Every handler but the ones that start a game keeps or raises the
    score. *)
Lemma step_score_monotone st rng e :
  starts_game e = false ->
  scoreCorrect st <= scoreCorrect (fst (step SONGS (st, rng) e)).
Proof.
  destruct e; try discriminate; intros _; cbn [step fst].
  - unfold handleAnswer.
    destruct (hasAnswered st); [lia|].
    destruct (currentSong st); [|lia]. destruct songObj; [|lia].
    destruct (jseqb _ _); cbn [negb];
      destruct (hadWrongGuess st); cbn [negb];
      try destruct (TOTAL_ROUNDS <=? _); cbn; lia.
  - unfold goToNextRound.
    destruct (hasAnswered st); cbn [negb]; [|cbn; lia].
    destruct (TOTAL_ROUNDS <=? _); [cbn; lia|].
    match goal with |- context [renderRound SONGS ?s rng] => set (st1 := s) end.
    destruct (_ <? _); [|cbn; lia].
    destruct (renderRound_keeps SONGS st1 rng) as (_ & _ & _ & _ & _ & K6 & _).
    rewrite K6. cbn. lia.
  - cbn. lia.
Qed.
End Answers.

Lemma started_reachable : reachable SONGS_DATA (fst started).
Proof.
  exact (reach_step SONGS_DATA initial sample_tape ClickStart
           (reach_initial SONGS_DATA)).
Qed.

(** C2.  In every state of the page the score is between 0 and 5, and no
    handler that plays the current game lowers it.  In a round that has
    just opened, after any number of wrong guesses the round is still
    open and the score unchanged; the correct answer then closes the
    round, adds exactly 1 to the score when no wrong guess came before
    it and nothing otherwise, and leaves the Next button enabled unless
    the game is complete. *)
Theorem score_counts_first_try
    (SONGS : list Song) (st : State) (rng : Rng) (e : Event)
    (round : State) (cur good : Song) (wrongs : list Song) :
  reachable SONGS st ->
  starts_game e = false ->
  currentSong round = Some cur ->
  hasAnswered round = false ->
  hadWrongGuess round = false ->
  Forall (wrong_for cur) wrongs ->
  commonName good = commonName cur ->
  let after := fst (step SONGS (st, rng) e) in
  let tried := guesses round wrongs in
  let done := handleAnswer tried (Some good) in
  0 <= scoreCorrect st /\
  scoreCorrect st <= TOTAL_ROUNDS /\
  scoreCorrect st <= scoreCorrect after /\
  scoreCorrect after <= TOTAL_ROUNDS /\
  hasAnswered tried = false /\
  scoreCorrect tried = scoreCorrect round /\
  scoreCorrect done =
    match wrongs with
    | [] => S (scoreCorrect round)
    | _ :: _ => scoreCorrect round
    end /\
  hasAnswered done = true /\
  nextBtnDisabled done = gameComplete done.
Proof.
  intros R He Hc Hh Hw Hf Hg after tried done.
  pose proof (reachable_inv SONGS st R) as I.
  pose proof (reachable_inv SONGS after (reach_step SONGS st rng e R)) as I'.
  destruct (guesses_wrong wrongs round cur Hc Hh Hf)
    as (T1 & T2 & T3 & T4 & _).
  fold tried in T1, T2, T3, T4.
  destruct (handleAnswer_correct tried cur good T1 T2 Hg)
    as (D1 & _ & D3 & D4 & _).
  fold done in D1, D3, D4.
  repeat split; try assumption.
  - lia.
  - pose proof (inv_score st I); pose proof (inv_rounds st I); lia.
  - apply step_score_monotone; exact He.
  - pose proof (inv_score after I'); pose proof (inv_rounds after I'); lia.
  - rewrite D3, T3, T4, Hw. destruct wrongs; reflexivity.
Qed.

Lemma score_counts_first_try_witness :
  let st := fst started in
  let after := fst (step SONGS_DATA (st, sample_tape) ClickNext) in
  let tried := guesses st [swampCicada] in
  let done := handleAnswer tried (Some periodicalCicada) in
  0 <= scoreCorrect st /\
  scoreCorrect st <= TOTAL_ROUNDS /\
  scoreCorrect st <= scoreCorrect after /\
  scoreCorrect after <= TOTAL_ROUNDS /\
  hasAnswered tried = false /\
  scoreCorrect tried = scoreCorrect st /\
  scoreCorrect done = scoreCorrect st /\
  hasAnswered done = true /\
  nextBtnDisabled done = gameComplete done.
Proof.
  apply (score_counts_first_try SONGS_DATA (fst started) sample_tape ClickNext
           (fst started) periodicalCicada periodicalCicada [swampCicada]).
  - exact started_reachable.
  - reflexivity.
  - vm_compute. reflexivity.
  - vm_compute. reflexivity.
  - vm_compute. reflexivity.
  - constructor; [|constructor]. unfold wrong_for. vm_compute. discriminate.
  - reflexivity.
Defined.

(** C5.  An answer submitted when the round is already resolved returns
    the state as it was, and so does a request for the next round while
    the round is not answered; in particular a second answer after the
    correct one changes nothing, the score included. *)
Theorem invalid_transitions_ignored
    (SONGS : list Song) (answered waiting round : State)
    (o o1 o2 : option Song) (rng : Rng) :
  hasAnswered answered = true ->
  hasAnswered waiting = false ->
  answersCorrectly round o1 = true ->
  handleAnswer answered o = answered /\
  goToNextRound SONGS waiting rng = (waiting, rng) /\
  handleAnswer (handleAnswer round o1) o2 = handleAnswer round o1 /\
  scoreCorrect (handleAnswer (handleAnswer round o1) o2) =
    scoreCorrect (handleAnswer round o1).
Proof.
  intros Ha Hw Hc.
  assert (A : forall s x, hasAnswered s = true -> handleAnswer s x = s).
  { intros s x H. unfold handleAnswer. rewrite H. reflexivity. }
  assert (B : hasAnswered (handleAnswer round o1) = true).
  { unfold answersCorrectly in Hc. apply andb_true_iff in Hc.
    destruct Hc as [Hh Hc]. apply negb_true_iff in Hh.
    destruct (currentSong round) as [cur|] eqn:Ec; [|discriminate].
    destruct o1 as [obj|]; [|discriminate].
    apply jseqb_eq in Hc.
    apply (handleAnswer_correct round cur obj Ec Hh Hc). }
  repeat split.
  - apply A; exact Ha.
  - unfold goToNextRound. rewrite Hw. reflexivity.
  - apply A; exact B.
  - rewrite (A _ o2 B). reflexivity.
Qed.

Lemma invalid_transitions_ignored_witness :
  let round := fst started in
  let answered := handleAnswer round (Some periodicalCicada) in
  handleAnswer answered (Some swampCicada) = answered /\
  goToNextRound SONGS_DATA round sample_tape = (round, sample_tape) /\
  handleAnswer answered (Some periodicalCicada) = answered /\
  scoreCorrect (handleAnswer answered (Some periodicalCicada)) =
    scoreCorrect answered.
Proof.
  apply (invalid_transitions_ignored SONGS_DATA
           (handleAnswer (fst started) (Some periodicalCicada))
           (fst started) (fst started)
           (Some swampCicada) (Some periodicalCicada) (Some periodicalCicada)
           sample_tape).
  - vm_compute. reflexivity.
  - vm_compute. reflexivity.
  - vm_compute. reflexivity.
Defined.

(* ------------------------------------------------------------------------- *)
(** ** Completion of a game *)

Section Completion.
Variable SONGS : list Song.

Lemma answersCorrectly_inv st o :
  answersCorrectly st o = true ->
  exists cur obj,
    currentSong st = Some cur /\ o = Some obj /\
    hasAnswered st = false /\ commonName obj = commonName cur.
Proof.
  unfold answersCorrectly. intros H. apply andb_true_iff in H.
  destruct H as [Hh Hc]. apply negb_true_iff in Hh.
  destruct (currentSong st) as [cur|]; [|discriminate].
  destruct o as [obj|]; [|discriminate].
  apply jseqb_eq in Hc. exists cur, obj. auto.
Qed.

(** An answer that is not taken as correct leaves the round count. *)
Lemma handleAnswer_rounds st o :
  roundsAnswered (handleAnswer st o) =
    if answersCorrectly st o then S (roundsAnswered st) else roundsAnswered st.
Proof.
  unfold handleAnswer, answersCorrectly.
  destruct (hasAnswered st); cbn [negb andb]; [reflexivity|].
  destruct (currentSong st); [|reflexivity].
  destruct o; [|reflexivity].
  destruct (jseqb _ _); cbn [negb].
  - destruct (TOTAL_ROUNDS <=? _); reflexivity.
  - destruct (hadWrongGuess st); reflexivity.
Qed.

Lemma goToNextRound_rounds st rng :
  roundsAnswered (fst (goToNextRound SONGS st rng)) = roundsAnswered st.
Proof.
  unfold goToNextRound.
  destruct (hasAnswered st); cbn [negb]; [|reflexivity].
  destruct (TOTAL_ROUNDS <=? _); [reflexivity|].
  match goal with |- context [renderRound SONGS ?s rng] => set (st1 := s) end.
  destruct (_ <? _); [|reflexivity].
  destruct (renderRound_keeps SONGS st1 rng) as (_ & _ & _ & _ & K5 & _).
  rewrite K5. reflexivity.
Qed.

Lemma complete_is_answered st :
  Inv st -> gameComplete st = true -> hasAnswered st = true.
Proof.
  intros I H. unfold gameComplete in H. apply Nat.leb_le in H.
  destruct (hasAnswered st) eqn:E; [reflexivity|].
  pose proof (inv_open st I E). lia.
Qed.
End Completion.


Lemma inFifthRound_reachable : reachable SONGS_DATA (fst inFifthRound).
Proof.
  unfold inFifthRound, playRound.
  repeat match goal with
  | |- reachable _ (fst (step _ ?w _)) =>
      rewrite (surjective_pairing w); apply reach_step
  end.
  exact started_reachable.
Qed.


(* ------------------------------------------------------------------------- *)
(** ** Starting a game on a region *)

(** C1, as stated, fails: on the catalog of the repository an unknown
    region name gives an empty pool, and the region button's handler
    starts no game: there are no session songs and no current song. *)
Lemma unknown_region_starts_no_game :
  SONGS_DATA <> [] /\
  let st' :=
    fst (chooseRegion SONGS_DATA initial (Some (js "Atlantis")) sample_tape) in
  getRegionPool SONGS_DATA (currentRegion st') = [] /\
  ~ 1 <= List.length (sessionSongs st') /\
  currentSong st' = None.
Proof.
  split; [discriminate|]. vm_compute. repeat split. lia.
Qed.

(** C1, amended.  [startNewGame] is defined on every state.  Its pool is
    the whole catalog when no region is set and otherwise exactly the
    catalog entries of the region, with no fallback.  On an empty pool it
    returns the state as it was; on a non-empty pool it opens round 1 of
    a game whose session songs are the first five (or fewer) of the
    shuffled pool, at least one. *)
Theorem startNewGame_by_region (SONGS : list Song) (st : State) (rng : Rng) :
  let pool := getRegionPool SONGS (currentRegion st) in
  let st' := fst (startNewGame SONGS st rng) in
  (forall s, In s pool <->
     In s SONGS /\
     (forall n, currentRegion st = Some n -> truthy n = true -> region s = n)) /\
  match pool with
  | [] => startNewGame SONGS st rng = (st, rng)
  | _ :: _ =>
      sessionSongs st' = firstn TOTAL_ROUNDS (fst (shuffle pool rng)) /\
      1 <= List.length (sessionSongs st') /\
      List.length (sessionSongs st') = Nat.min TOTAL_ROUNDS (List.length pool) /\
      incl (sessionSongs st') pool /\
      currentSong st' = nth_error (sessionSongs st') 0 /\
      currentSong st' <> None /\
      sessionIndex st' = 0 /\ roundsAnswered st' = 0 /\ scoreCorrect st' = 0 /\
      hasAnswered st' = false /\ hadWrongGuess st' = false
  end.
Proof.
  intros pool st'. split.
  - intros s. subst pool. unfold getRegionPool.
    destruct (currentRegion st) as [n|].
    + destruct (truthy n) eqn:Et.
      * rewrite filter_In, jseqb_eq. split.
        -- intros [H1 H2]. split; [exact H1|]. intros n' E _.
           injection E as <-. exact H2.
        -- intros [H1 H2]. split; [exact H1|]. apply H2; [reflexivity|exact Et].
      * split; [|tauto]. intros H. split; [exact H|].
        intros n' E. injection E as <-. congruence.
    + split; [|tauto]. intros H. split; [exact H|]. discriminate.
  - destruct pool as [|p pool'] eqn:Ep.
    + apply startNewGame_refuses. exact Ep.
    + assert (Hne : getRegionPool SONGS (currentRegion st) <> [])
        by (fold pool; rewrite Ep; discriminate).
      destruct (startNewGame_starts SONGS st rng Hne)
        as (S1 & S2 & S3 & S4 & S5 & S6 & S7 & S8 & _).
      fold pool in S1. rewrite Ep in S1. fold st' in S1, S2, S3, S4, S5, S6, S7, S8.
      assert (L : List.length (sessionSongs st')
                  = Nat.min TOTAL_ROUNDS (List.length (p :: pool')))
        by (rewrite S1, length_firstn, shuffle_length; reflexivity).
      repeat split; try assumption.
      * rewrite L. cbn. lia.
      * intros s Hs. rewrite S1 in Hs. apply In_prefix in Hs.
        apply shuffle_in in Hs. exact Hs.
Qed.

(* ------------------------------------------------------------------------- *)
(** ** The targets of a session *)

Section Targets.
Variable SONGS : list Song.

Lemma stalled_step st rng e :
  stalled st -> starts_game e = false ->
  let st' := fst (step SONGS (st, rng) e) in
  stalled st' /\
  roundsAnswered st' = roundsAnswered st /\
  scoreCorrect st' = scoreCorrect st /\
  currentSong st' = currentSong st.
Proof.
  intros (Hh & Hr & Hl) He.
  destruct e; try discriminate; cbn [step fst].
  - unfold handleAnswer. rewrite Hh. unfold stalled. tauto.
  - unfold goToNextRound. rewrite Hh. cbn [negb].
    apply Nat.leb_gt in Hr. rewrite Hr. apply Nat.leb_gt in Hr.
    cbn [sessionIndex sessionSongs].
    apply Nat.ltb_ge in Hl. rewrite Hl. apply Nat.ltb_ge in Hl.
    unfold stalled; cbn. repeat split; auto.
  - unfold stalled; cbn. tauto.
Qed.

Lemma stalled_run es : forall st rng,
  stalled st -> Forall (fun e => starts_game e = false) es ->
  let st' := fst (run SONGS (st, rng) es) in
  stalled st' /\
  roundsAnswered st' = roundsAnswered st /\
  scoreCorrect st' = scoreCorrect st /\
  currentSong st' = currentSong st.
Proof.
  induction es as [|e es IH]; intros st rng Hs Hf; [cbn; tauto|].
  inversion Hf as [|? ? He Hf']; subst.
  cbn [run fold_left].
  destruct (step SONGS (st, rng) e) as [st1 rng1] eqn:E.
  destruct (stalled_step st rng e Hs He) as (A1 & A2 & A3 & A4).
  rewrite E in A1, A2, A3, A4. cbn [fst] in A1, A2, A3, A4.
  destruct (IH st1 rng1 A1 Hf') as (B1 & B2 & B3 & B4).
  unfold run in *. cbn zeta in *.
  rewrite B2, B3, B4, A2, A3, A4. tauto.
Qed.
End Targets.

(** C7, as stated, fails: with a pool of two entries, once both session
    songs are answered Next draws no target (the current song stays, the
    round stays closed, nothing is reshuffled), and no sequence of
    answers and Next clicks ever opens a round or completes the game. *)
Lemma small_pool_game_stalls :
  let st := fst twoPlayed in
  List.length (getRegionPool twoSongs (currentRegion st)) = 2 /\
  List.length (sessionSongs st) = 2 /\
  roundsAnswered st = 2 /\
  gameComplete st = false /\
  hasAnswered (fst (goToNextRound twoSongs st (snd twoPlayed))) = true /\
  currentSong (fst (goToNextRound twoSongs st (snd twoPlayed))) = currentSong st /\
  sessionSongs (fst (goToNextRound twoSongs st (snd twoPlayed))) = sessionSongs st /\
  (forall es rng,
     Forall (fun e => starts_game e = false) es ->
     hasAnswered (fst (run twoSongs (st, rng) es)) = true /\
     gameComplete (fst (run twoSongs (st, rng) es)) = false /\
     currentSong (fst (run twoSongs (st, rng) es)) = currentSong st).
Proof.
  cbv zeta.
  assert (S : stalled (fst twoPlayed))
    by (unfold stalled; vm_compute; repeat split; lia).
  repeat match goal with |- _ /\ _ => split end;
    try (vm_compute; reflexivity).
  intros es rng Hf.
  destruct (stalled_run twoSongs es (fst twoPlayed) rng S Hf)
    as ((H1 & H2 & _) & _ & _ & H4).
  repeat split; try assumption.
  unfold gameComplete. apply Nat.leb_gt. exact H2.
Qed.

Section TargetsFixed.
Variable SONGS : list Song.

Lemma handleAnswer_sessionSongs st o :
  sessionSongs (handleAnswer st o) = sessionSongs st.
Proof.
  unfold handleAnswer.
  destruct (hasAnswered st); [reflexivity|].
  destruct (currentSong st); [|reflexivity]. destruct o; [|reflexivity].
  destruct (jseqb _ _); cbn [negb].
  - destruct (TOTAL_ROUNDS <=? _); reflexivity.
  - destruct (hadWrongGuess st); reflexivity.
Qed.

Lemma goToNextRound_sessionSongs st rng :
  sessionSongs (fst (goToNextRound SONGS st rng)) = sessionSongs st.
Proof.
  unfold goToNextRound.
  destruct (hasAnswered st); cbn [negb]; [|reflexivity].
  destruct (TOTAL_ROUNDS <=? _); [reflexivity|].
  match goal with |- context [renderRound SONGS ?s rng] => set (st1 := s) end.
  destruct (_ <? _); [|reflexivity].
  destruct (renderRound_keeps SONGS st1 rng) as (_ & _ & K3 & _).
  rewrite K3. reflexivity.
Qed.

Lemma goToNextRound_opens st rng :
  Inv st -> hasAnswered st = true ->
  roundsAnswered st < List.length (sessionSongs st) ->
  roundsAnswered st < TOTAL_ROUNDS ->
  let next := fst (goToNextRound SONGS st rng) in
  hasAnswered next = false /\
  currentSong next = nth_error (sessionSongs st) (roundsAnswered st) /\
  currentSong next <> None /\
  sessionIndex next = roundsAnswered st.
Proof.
  intros I Hh Hl Hr.
  assert (Hi : S (sessionIndex st) = roundsAnswered st)
    by (destruct (inv_closed st I Hh) as [E|[E1 E2]]; [exact E | lia]).
  unfold goToNextRound. rewrite Hh. cbn [negb].
  apply Nat.leb_gt in Hr. rewrite Hr.
  match goal with |- context [renderRound SONGS ?s rng] => set (st1 := s) end.
  assert (El : (sessionIndex st1 <? List.length (sessionSongs st1)) = true)
    by (apply Nat.ltb_lt; cbn; lia).
  rewrite El.
  destruct (nth_error (sessionSongs st1) (sessionIndex st1)) as [song|] eqn:En;
    [|apply nth_error_None in En; apply Nat.ltb_lt in El; lia].
  destruct (renderRound_keeps SONGS st1 rng) as (_ & _ & _ & K4 & _).
  destruct (renderRound_opens SONGS st1 rng song En) as (O1 & O2 & _).
  cbn zeta. rewrite K4, O1, O2.
  change (sessionSongs st1) with (sessionSongs st) in En.
  change (sessionIndex st1) with (S (sessionIndex st)) in *.
  rewrite <- Hi, En. repeat split; discriminate.
Qed.
End TargetsFixed.

(** C7, amended.  The targets of a game are fixed when it starts:
    [startNewGame] takes the first five (or fewer) entries of one shuffle
    of the pool as session songs, each pool entry at most once, and no
    handler that plays the game changes them.  The target of an open
    round is the session song at the round's index, and Next after an
    answered round opens the round of the next session song as long as
    there is one and fewer than five rounds are answered. *)
Theorem session_targets_fixed
    (SONGS : list Song) (st : State) (rng : Rng) (e : Event) :
  reachable SONGS st ->
  let pool := getRegionPool SONGS (currentRegion st) in
  let fresh := fst (startNewGame SONGS st rng) in
  let next := fst (goToNextRound SONGS st rng) in
  (pool <> [] ->
   sessionSongs fresh = firstn TOTAL_ROUNDS (fst (shuffle pool rng)) /\
   List.length (sessionSongs fresh) = Nat.min TOTAL_ROUNDS (List.length pool) /\
   exists rest, Permutation (sessionSongs fresh ++ rest) pool) /\
  (starts_game e = false ->
   sessionSongs (fst (step SONGS (st, rng) e)) = sessionSongs st) /\
  (hasAnswered st = false -> currentSong st <> None ->
   sessionIndex st = roundsAnswered st /\
   currentSong st = nth_error (sessionSongs st) (roundsAnswered st)) /\
  (hasAnswered st = true ->
   roundsAnswered st < List.length (sessionSongs st) ->
   roundsAnswered st < TOTAL_ROUNDS ->
   hasAnswered next = false /\
   currentSong next = nth_error (sessionSongs st) (roundsAnswered st) /\
   currentSong next <> None /\
   sessionIndex next = roundsAnswered st).
Proof.
  intros R pool fresh next. pose proof (reachable_inv SONGS st R) as I.
  split; [|split; [|split]].
  - intros Hne.
    destruct (startNewGame_starts SONGS st rng Hne) as (S1 & _).
    fold pool fresh in S1. split; [exact S1|]. split.
    + rewrite S1, length_firstn, shuffle_length. reflexivity.
    + exists (skipn TOTAL_ROUNDS (fst (shuffle pool rng))).
      rewrite S1, firstn_skipn. apply shuffle_perm.
  - intros He. destruct e; try discriminate; cbn [step fst].
    + apply handleAnswer_sessionSongs.
    + apply goToNextRound_sessionSongs.
    + reflexivity.
  - intros Hh Hc. pose proof (inv_index st I Hh Hc) as Hi.
    split; [exact Hi|]. rewrite <- Hi. apply (inv_target st I Hh Hc).
  - intros Hh Hl Hr. apply goToNextRound_opens; assumption.
Qed.

Lemma session_targets_fixed_witness :
  let st := handleAnswer (fst started) (Some periodicalCicada) in
  let pool := getRegionPool SONGS_DATA (currentRegion st) in
  let fresh := fst (startNewGame SONGS_DATA st sample_tape) in
  let next := fst (goToNextRound SONGS_DATA st sample_tape) in
  (pool <> [] ->
   sessionSongs fresh = firstn TOTAL_ROUNDS (fst (shuffle pool sample_tape)) /\
   List.length (sessionSongs fresh) = Nat.min TOTAL_ROUNDS (List.length pool) /\
   exists rest, Permutation (sessionSongs fresh ++ rest) pool) /\
  (starts_game ClickNext = false ->
   sessionSongs (fst (step SONGS_DATA (st, sample_tape) ClickNext))
   = sessionSongs st) /\
  (hasAnswered st = false -> currentSong st <> None ->
   sessionIndex st = roundsAnswered st /\
   currentSong st = nth_error (sessionSongs st) (roundsAnswered st)) /\
  (hasAnswered st = true ->
   roundsAnswered st < List.length (sessionSongs st) ->
   roundsAnswered st < TOTAL_ROUNDS ->
   hasAnswered next = false /\
   currentSong next = nth_error (sessionSongs st) (roundsAnswered st) /\
   currentSong next <> None /\
   sessionIndex next = roundsAnswered st).
Proof.
  apply (session_targets_fixed SONGS_DATA
           (handleAnswer (fst started) (Some periodicalCicada))
           sample_tape ClickNext).
  exact (reach_step SONGS_DATA (fst started) sample_tape
           (ClickAnswer (Some periodicalCicada)) started_reachable).
Defined.

(* ------------------------------------------------------------------------- *)
(** ** The shuffle is a permutation *)



(* ------------------------------------------------------------------------- *)
(** ** The end message *)

(** C6.  [endMessage] is a function of the score and the mode alone.  Its
    results for the three modes and the scores 0 to 5 are, in order, the
    18 string literals of [endMessageTable], which are pairwise
    different; so for each of these inputs the result is not empty and is
    in the table.  A score above 5 gets the message of 5, and any other
    mode gets the one fallback string, which is not in the table. *)
Theorem endMessage_total :
  List.length endMessageTable = 18 /\
  flat_map (fun m => map (fun s => endMessage s m) (seq 0 6)) modes
  = endMessageTable /\
  NoDup endMessageTable /\
  (forall mode score,
     In mode modes -> score <= 5 ->
     endMessage score mode <> EmptyString /\
     In (endMessage score mode) endMessageTable) /\
  (forall mode score,
     In mode modes -> 5 <= score -> endMessage score mode = endMessage 5 mode) /\
  (forall mode score,
     ~ In mode modes -> endMessage score mode = "Nice work!"%string) /\
  ~ In "Nice work!"%string endMessageTable /\
  (forall mode mode' score score',
     mode = mode' -> score = score' ->
     endMessage score mode = endMessage score' mode').
Proof.
  split; [reflexivity|].
  split; [reflexivity|].
  split.
  { apply (NoDup_count_occ' string_dec). intros x Hx.
    cbv in Hx.
    repeat (destruct Hx as [<-|Hx]; [vm_compute; reflexivity|]).
    destruct Hx. }
  split.
  { intros mode score Hm Hs.
    assert (Hs' : score = 0 \/ score = 1 \/ score = 2 \/ score = 3
                  \/ score = 4 \/ score = 5) by lia.
    destruct Hm as [<-|[<-|[<-|[]]]];
      destruct Hs' as [->|[->|[->|[->|[->| ->]]]]];
      (split; [vm_compute; discriminate | vm_compute; tauto]). }
  split.
  { intros mode score Hm Hs.
    do 5 (destruct score as [|score]; [lia|]).
    destruct Hm as [<-|[<-|[<-|[]]]]; reflexivity. }
  split.
  { intros mode score Hm. unfold endMessage.
    destruct (String.eqb_spec mode MODES.SPECTRO) as [->|_];
      [exfalso; apply Hm; cbn; tauto|].
    destruct (String.eqb_spec mode MODES.IMAGE) as [->|_];
      [exfalso; apply Hm; cbn; tauto|].
    destruct (String.eqb_spec mode MODES.FACTS) as [->|_];
      [exfalso; apply Hm; cbn; tauto|].
    reflexivity. }
  split.
  { intros H. cbv in H.
    repeat (destruct H as [H|H]; [discriminate H|]). destruct H. }
  intros mode mode' score score' -> ->. reflexivity.
Qed.

(* ------------------------------------------------------------------------- *)
(** ** Fact redaction *)

(** The pattern that [redactFact] builds is read back as the escaped
    targets themselves, bar the escaping. *)
Lemma is_special_false (c : codeunit) :
  is_special c = false -> N.eqb c BACKSLASH = false /\ N.eqb c BAR = false.
Proof.
  intros H. split.
  - destruct (N.eqb_spec c BACKSLASH) as [->|]; [discriminate H | reflexivity].
  - destruct (N.eqb_spec c BAR) as [->|]; [discriminate H | reflexivity].
Qed.

Lemma alternatives_go_escape (t : jsstring) : forall rest cur,
  alternatives_go (escapeRegExp t ++ rest) cur
  = alternatives_go rest (rev t ++ cur).
Proof.
  induction t as [|c t IH]; intros rest cur; [reflexivity|].
  unfold escapeRegExp in *. cbn [flat_map rev].
  rewrite <- !app_assoc. cbn [app].
  destruct (is_special c) eqn:Es; cbn [app alternatives_go].
  - rewrite N.eqb_refl. apply IH.
  - destruct (is_special_false c Es) as [-> ->]. apply IH.
Qed.

Lemma alternatives_join_escape (t : jsstring) (ts : list jsstring) :
  alternatives (join_bar (map escapeRegExp (t :: ts))) = t :: ts.
Proof.
  unfold alternatives. revert t. induction ts as [|t2 ts IH]; intros t.
  - cbn [map join_bar].
    rewrite <- (app_nil_r (escapeRegExp t)), alternatives_go_escape.
    cbn. rewrite app_nil_r, rev_involutive. reflexivity.
  - change (join_bar (map escapeRegExp (t :: t2 :: ts)))
      with (escapeRegExp t ++ BAR :: join_bar (map escapeRegExp (t2 :: ts))).
    rewrite alternatives_go_escape. cbn [alternatives_go].
    change (N.eqb BAR BACKSLASH) with false. rewrite N.eqb_refl.
    cbv iota. rewrite app_nil_r, rev_involutive, IH. reflexivity.
Qed.

Section RedactFacts.
Variable canonicalize : codeunit -> codeunit.
Variable toLowerCase : jsstring -> jsstring.

Lemma bullets_for (m : jsstring) :
  Forall2 kept_or_bullet (repeat BULLET (List.length m)) m.
Proof.
  induction m; cbn; constructor; [right; reflexivity | assumption].
Qed.

Lemma replace_global_bullets (alts : list jsstring) (text : jsstring) :
  Forall2 kept_or_bullet
    (replace_global canonicalize alts
       (fun m => repeat BULLET (List.length m)) text)
    text.
Proof.
  remember (fun m : jsstring => repeat BULLET (List.length m)) as fn eqn:Efn.
  funelim (replace_global canonicalize alts fn text);
    try match goal with H : _ = replace_global _ _ _ _ |- _ => clear H end.
  - constructor.
  - constructor.
  - cbn [List.length repeat app]. constructor; [left; reflexivity | auto].
  - rewrite <- (firstn_skipn (S k) (c :: text')) at 3.
    apply Forall2_app; [apply bullets_for | auto].
  - constructor; [left; reflexivity | auto].
Qed.

(** The replacement keeps the length for every callback that does. *)
Lemma replace_global_length (alts : list jsstring)
    (fn : jsstring -> jsstring) (text : jsstring) :
  (forall m, List.length (fn m) = List.length m) ->
  List.length (replace_global canonicalize alts fn text) = List.length text.
Proof.
  intros Hfn.
  funelim (replace_global canonicalize alts fn text);
    try match goal with H : _ = replace_global _ _ _ _ |- _ => clear H end.
  - apply (Hfn []).
  - reflexivity.
  - rewrite length_app, (Hfn []). cbn. f_equal. auto.
  - rewrite length_app, Hfn.
    match goal with IH : _ -> List.length _ = _ |- _ => rewrite (IH Hfn) end.
    rewrite <- length_app, firstn_skipn. reflexivity.
  - cbn. f_equal. auto.
Qed.
End RedactFacts.

(** C10.  [redactFact] is defined on every input.  For a [null] song and
    for a song without a fact it returns the empty string; for every
    other song it returns a string of exactly the length of the song's
    fact, each unit of which is the unit of the fact at that place or a
    bullet. *)
Theorem redactFact_length_preserving
    (canonicalize : codeunit -> codeunit) (toLowerCase : jsstring -> jsstring)
    (song : Song) (name sci reg : jsstring) :
  redactFact canonicalize toLowerCase None = [] /\
  redactFact canonicalize toLowerCase (Some (mkSong name sci reg [])) = [] /\
  List.length (redactFact canonicalize toLowerCase (Some song))
  = List.length (fact song) /\
  Forall2 kept_or_bullet
    (redactFact canonicalize toLowerCase (Some song)) (fact song).
Proof.
  split; [reflexivity|]. split; [reflexivity|].
  assert (F : Forall2 kept_or_bullet
                (redactFact canonicalize toLowerCase (Some song)) (fact song)).
  { unfold redactFact.
    destruct (fact song) as [|c text] eqn:Ef; cbn [truthy negb]; [constructor|].
    destruct (dedupe [] _).
    - clear. induction (c :: text); constructor; [left; reflexivity | assumption].
    - apply replace_global_bullets. }
  split; [|exact F].
  eapply Forall2_length; exact F.
Qed.

(* ------------------------------------------------------------------------- *)
(** ** The catalog of the repository, run *)

(** A game on the whole catalog in fact mode: four options; a wrong guess
    keeps the round open and the score at 0; the correct answer after it
    closes the round with the score still 0 and enables Next; Next opens
    round 2. *)
Example facts_game_second_try :
  let w0 := run SONGS_DATA (initial, sample_tape) [ClickMode MODES.FACTS] in
  let w1 := step SONGS_DATA w0 (ClickAnswer (Some swampCicada)) in
  let w2 := step SONGS_DATA w1 (ClickAnswer (Some periodicalCicada)) in
  let w3 := step SONGS_DATA w2 ClickNext in
  currentSong (fst w0) = Some periodicalCicada /\
  List.length (answerButtons (fst w0)) = 4 /\
  (scoreCorrect (fst w1), hasAnswered (fst w1)) = (0, false) /\
  (scoreCorrect (fst w2), hasAnswered (fst w2), nextBtnDisabled (fst w2))
  = (0, true, false) /\
  (sessionIndex (fst w3), hasAnswered (fst w3)) = (1, false).
Proof. vm_compute. repeat split. Qed.

(** Five rounds without a miss: score 5, game complete, end overlay
    shown, and the message of the mode for 5. *)
Example perfect_game :
  let st := handleAnswer (fst inFifthRound) (currentSong (fst inFifthRound)) in
  scoreCorrect st = 5 /\ gameComplete st = true /\
  endOverlayHidden st = false /\
  endMessage (scoreCorrect st) (currentMode st)
  = "Master of insect sounds! You must be an insect sound biologist!"%string.
Proof. vm_compute. repeat split. Qed.

(** A region with two species gives two options. *)
Example two_species_region :
  map commonName
    (getRegionPool SONGS_DATA (Some (js "European grasslands")))
  = [js "Meadow Grasshopper"; js "European Field Cricket"] /\
  fst (buildChoices SONGS_DATA (Some (js "European grasslands"))
         (js "Meadow Grasshopper") sample_tape)
  = [js "European Field Cricket"; js "Meadow Grasshopper"].
Proof. vm_compute. split; reflexivity. Qed.

(** The redacted fact of the periodical cicada, with the case mappings
    of the ASCII letters. *)
Example redact_periodical_cicada :
  redactFact canonicalize_ascii toLowerCase_ascii (Some periodicalCicada)
  = repeat BULLET 18 ++ js " spend " ++ repeat BULLET 2 ++ js " "
    ++ repeat BULLET 4
    ++ js "s underground feeding on tree roots before emerging in synchronized, spectacular numbers. Their unusual life cycle helps them avoid predators and overwhelm ecosystems with sheer abundance.".
Proof. vm_compute. reflexivity. Qed.

(** Equal keys keep the input order, and the reverse order is reached
    by decreasing keys. *)
Example shuffle_orders :
  shuffle_with [1 # 2; 1 # 2; 1 # 2] [1; 2; 3] = [1; 2; 3] /\
  shuffle_with [3 # 4; 1 # 2; 1 # 4] [1; 2; 3] = [3; 2; 1].
Proof. vm_compute. split; reflexivity. Qed.

(* ========================================================================= *)
(** * Further properties of the code *)

(* ------------------------------------------------------------------------- *)
(** ** What the redaction hides and what it keeps *)

Lemma escapeRegExp_inj (a b : jsstring) :
  escapeRegExp a = escapeRegExp b -> a = b.
Proof.
  intros E.
  pose proof (alternatives_join_escape a []) as Ha.
  pose proof (alternatives_join_escape b []) as Hb.
  cbn [map join_bar] in Ha, Hb. rewrite E in Ha. congruence.
Qed.

Lemma jseqb_escape (a b : jsstring) :
  jseqb (escapeRegExp a) (escapeRegExp b) = jseqb a b.
Proof.
  destruct (jseqb a b) eqn:E.
  - apply jseqb_eq in E. subst. apply jseqb_refl.
  - apply jseqb_neq. apply jseqb_neq in E. intros H. apply E, escapeRegExp_inj, H.
Qed.

Lemma dedupe_escape (l : list jsstring) : forall seen,
  dedupe (map escapeRegExp seen) (map escapeRegExp l)
  = map escapeRegExp (dedupe seen l).
Proof.
  induction l as [|x l IH]; intros seen; [reflexivity|].
  cbn [map dedupe].
  assert (E : existsb (jseqb (escapeRegExp x)) (map escapeRegExp seen)
              = existsb (jseqb x) seen).
  { clear. induction seen as [|y seen IH]; [reflexivity|].
    cbn [map existsb]. rewrite jseqb_escape, IH. reflexivity. }
  rewrite E. destruct (existsb (jseqb x) seen).
  - apply IH.
  - cbn [map]. f_equal. apply (IH (x :: seen)).
Qed.

Lemma dedupe_In (l : list jsstring) : forall seen x,
  In x (dedupe seen l) <-> In x l /\ ~ In x seen.
Proof.
  induction l as [|y l IH]; intros seen x; cbn [dedupe In]; [tauto|].
  destruct (existsb (jseqb y) seen) eqn:E.
  - apply existsb_exists in E. destruct E as (z & Hz & Ez).
    apply jseqb_eq in Ez. subst z.
    rewrite IH. split; [tauto|]. intros [[->|H] N]; tauto.
  - assert (Hy : ~ In y seen).
    { intros H. assert (existsb (jseqb y) seen = true); [|congruence].
      apply existsb_exists. exists y. split; [exact H | apply jseqb_refl]. }
    cbn [In]. rewrite IH. cbn [In].
    destruct (jsstring_eq_dec y x) as [->|Hne]; [tauto|]. tauto.
Qed.

(** The alternatives of the pattern of a song: its non-empty targets,
    each once. *)
Lemma redact_alternatives (toLowerCase : jsstring -> jsstring) (song : Song) :
  let targets := filter truthy (redactTargets toLowerCase song) in
  let escaped := dedupe [] (map escapeRegExp targets) in
  escaped <> [] /\
  alternatives (join_bar escaped) = dedupe [] targets.
Proof.
  intros targets escaped. subst escaped.
  pose proof (dedupe_escape targets []) as E. cbn [map] in E. rewrite E.
  assert (Hin : In (js "cricket") (dedupe [] targets)).
  { apply dedupe_In. split; [|intros []]. subst targets.
    apply filter_In. split; [|reflexivity].
    unfold redactTargets. apply in_or_app; right. apply in_or_app; right.
    apply in_or_app; left. left. reflexivity. }
  destruct (dedupe [] targets) as [|t ts]; [destruct Hin|].
  split; [discriminate|]. apply alternatives_join_escape.
Qed.

Section ReplaceFacts.
Variable canonicalize : codeunit -> codeunit.

Lemma matches_literal_length (t s : jsstring) :
  matches_literal canonicalize t s = true -> List.length t <= List.length s.
Proof.
  revert s; induction t as [|a t IH]; intros [|b s] H; cbn in *;
    try lia; try discriminate.
  apply andb_true_iff in H. destruct H as [_ H]. apply IH in H. lia.
Qed.

Lemma match_here_Some (alts : list jsstring) (s : jsstring) (k : nat) :
  match_here canonicalize alts s = Some k ->
  exists t, In t alts /\ List.length t = k /\
            matches_literal canonicalize t s = true.
Proof.
  induction alts as [|t alts IH]; cbn [match_here]; [discriminate|].
  destruct (matches_literal canonicalize t s) eqn:E.
  - intros [= <-]. exists t. cbn; auto.
  - intros H. destruct (IH H) as (t' & H1 & H2 & H3).
    exists t'. cbn; auto.
Qed.

Lemma match_here_None (alts : list jsstring) (s t : jsstring) :
  match_here canonicalize alts s = None -> In t alts ->
  matches_literal canonicalize t s = false.
Proof.
  induction alts as [|t' alts IH]; cbn [match_here In]; [tauto|].
  destruct (matches_literal canonicalize t' s) eqn:E; [discriminate|].
  intros H [->|Hin]; [exact E | apply IH; assumption].
Qed.

Lemma matches_literal_nil (t : jsstring) :
  t <> [] -> matches_literal canonicalize t [] = false.
Proof. destruct t; [congruence | reflexivity]. Qed.

(** Where an alternative matches in the text, the result has a bullet. *)
Lemma replace_global_hides (alts : list jsstring) (text : jsstring) :
  Forall (fun t => t <> []) alts ->
  forall t i, In t alts ->
    matches_literal canonicalize t (skipn i text) = true ->
    nth_error (replace_global canonicalize alts
                 (fun m => repeat BULLET (List.length m)) text) i
    = Some BULLET.
Proof.
  intros Hne.
  remember (fun m : jsstring => repeat BULLET (List.length m)) as fn eqn:Efn.
  funelim (replace_global canonicalize alts fn text);
    try match goal with H : _ = replace_global _ _ _ _ |- _ => clear H end;
    intros t i Hin Hm.
  - rewrite skipn_nil, matches_literal_nil in Hm; [discriminate|].
    eapply Forall_forall in Hne; eauto.
  - rewrite skipn_nil, matches_literal_nil in Hm; [discriminate|].
    eapply Forall_forall in Hne; eauto.
  - exfalso. apply match_here_Some in Heq. destruct Heq as (t0 & H0 & L0 & _).
    apply (proj1 (Forall_forall _ _) Hne) in H0.
    destruct t0; [congruence | discriminate L0].
  - pose proof Heq as Hs. apply match_here_Some in Hs.
    destruct Hs as (t0 & _ & L0 & M0). apply matches_literal_length in M0.
    assert (Lf : List.length (firstn (S k) (c :: text')) = S k)
      by (rewrite length_firstn; lia).
    rewrite Lf. destruct (Nat.lt_ge_cases i (S k)) as [Hi|Hi].
    + rewrite nth_error_app1 by (rewrite repeat_length; exact Hi).
      apply nth_error_repeat. exact Hi.
    + rewrite nth_error_app2 by (rewrite repeat_length; exact Hi).
      rewrite repeat_length.
      match goal with IH : context [nth_error _ _ = Some BULLET] |- _ =>
        apply (IH Hne t); [exact Hin|] end.
      rewrite skipn_skipn. replace (i - S k + S k) with i by lia. exact Hm.
  - destruct i as [|j].
    + cbn [skipn] in Hm. rewrite (match_here_None _ _ _ Heq Hin) in Hm.
      discriminate.
    + cbn [nth_error].
      match goal with IH : context [nth_error _ _ = Some BULLET] |- _ =>
        apply (IH Hne t); [exact Hin | exact Hm] end.
Qed.

(** A text in which no alternative matches anywhere is returned as it
    is. *)
Lemma replace_global_no_match (alts : list jsstring)
    (fn : jsstring -> jsstring) (text : jsstring) :
  (forall i, match_here canonicalize alts (skipn i text) = None) ->
  replace_global canonicalize alts fn text = text.
Proof.
  funelim (replace_global canonicalize alts fn text);
    try match goal with H : _ = replace_global _ _ _ _ |- _ => clear H end;
    intros Hn.
  - specialize (Hn 0). cbn in Hn. congruence.
  - reflexivity.
  - specialize (Hn 0). cbn [skipn] in Hn. congruence.
  - specialize (Hn 0). cbn [skipn] in Hn. congruence.
  - f_equal. match goal with IH : _ -> replace_global _ _ _ _ = _ |- _ =>
      apply IH end.
    intros i. apply (Hn (S i)).
Qed.
End ReplaceFacts.



(** X2.  A fact in which no redaction target of the song occurs is
    returned unchanged by [redactFact]. *)
Theorem redactFact_keeps_unmentioning
    (canonicalize : codeunit -> codeunit) (toLowerCase : jsstring -> jsstring)
    (song : Song) :
  mentions_no_target canonicalize toLowerCase song = true ->
  redactFact canonicalize toLowerCase (Some song) = fact song.
Proof.
  intros Hno. unfold redactFact.
  destruct (fact song) as [|c text] eqn:Ef; [reflexivity|].
  cbn [truthy negb].
  destruct (redact_alternatives toLowerCase song) as [He Halt].
  cbv zeta in He, Halt.
  destruct (dedupe [] (map escapeRegExp
              (filter truthy (redactTargets toLowerCase song))))
    as [|e es] eqn:Ee; [reflexivity|].
  rewrite Halt. apply replace_global_no_match. intros i.
  destruct (match_here canonicalize _ (skipn i (c :: text))) as [k|] eqn:Em;
    [|reflexivity].
  exfalso. apply match_here_Some in Em. destruct Em as (t & Hin & _ & Hm).
  apply dedupe_In in Hin. destruct Hin as [Hin _].
  apply filter_In in Hin. destruct Hin as [Hin Ht].
  unfold mentions_no_target in Hno. rewrite forallb_forall in Hno.
  specialize (Hno t Hin). rewrite Ht, Ef in Hno. cbn [andb] in Hno.
  apply negb_true_iff in Hno.
  assert (Hi : i < List.length (c :: text)).
  { destruct (Nat.lt_ge_cases i (List.length (c :: text))) as [H|H]; [exact H|].
    rewrite skipn_all2 in Hm by exact H.
    rewrite matches_literal_nil in Hm; [discriminate|].
    destruct t; [discriminate Ht | discriminate]. }
  assert (occurs canonicalize t (c :: text) = true); [|congruence].
  apply existsb_exists. exists i. split; [|exact Hm].
  apply in_seq. lia.
Qed.

Lemma redactFact_keeps_unmentioning_witness :
  redactFact canonicalize_ascii toLowerCase_ascii (Some quietSong)
  = fact quietSong.
Proof.
  apply (redactFact_keeps_unmentioning canonicalize_ascii toLowerCase_ascii
           quietSong).
  vm_compute. reflexivity.
Defined.

(** X3.  Escaping makes every target a literal: the pattern that joins
    the escaped targets with bars is read back as exactly the targets,
    in order, whatever units they contain (bars, backslashes and the
    other regular-expression operators included); so different targets
    have different escaped forms. *)
Theorem escaped_pattern_reads_back (t t' : jsstring) (ts : list jsstring) :
  alternatives (join_bar (map escapeRegExp (t :: ts))) = t :: ts /\
  (escapeRegExp t = escapeRegExp t' -> t = t') /\
  List.length t <= List.length (escapeRegExp t) <= 2 * List.length t.
Proof.
  split; [apply alternatives_join_escape|].
  split; [apply escapeRegExp_inj|].
  unfold escapeRegExp. induction t as [|c t IH]; cbn [flat_map List.length].
  - lia.
  - rewrite length_app. destruct (is_special c); cbn [List.length]; lia.
Qed.

(* ------------------------------------------------------------------------- *)
(** ** Hints *)

Lemma indexOf_Some (c : codeunit) (s : jsstring) : forall i,
  indexOf c s = Some i ->
  exists pre post, s = pre ++ c :: post /\ List.length pre = i /\ ~ In c pre.
Proof.
  induction s as [|x s IH]; intros i; cbn [indexOf]; [discriminate|].
  destruct (N.eqb_spec x c) as [->|Hne].
  - intros [= <-]. exists [], s. cbn. auto.
  - destruct (indexOf c s) as [j|]; [|discriminate].
    intros [= <-]. destruct (IH j eq_refl) as (pre & post & -> & L & N).
    exists (x :: pre), post. cbn. repeat split; [lia|].
    intros [H|H]; [congruence | contradiction].
Qed.

Lemma indexOf_None (c : codeunit) (s : jsstring) :
  indexOf c s = None <-> ~ In c s.
Proof.
  induction s as [|x s IH]; cbn [indexOf In]; [tauto|].
  destruct (N.eqb_spec x c) as [->|Hne].
  - split; [discriminate | tauto].
  - destruct (indexOf c s).
    + split; [discriminate|]. intros H. exfalso. apply H. right.
      destruct IH as [_ IH]. destruct (in_dec N.eq_dec c s); [assumption|].
      specialize (IH n0). discriminate.
    + split; [|reflexivity]. intros _ [H|H]; [congruence|].
      apply (proj1 IH eq_refl H).
Qed.

(** X4.  [getHintText] returns the empty string for no song and a
    non-empty hint for every song.  Outside fact mode the hint is the
    first sentence of the fact: when the fact has a full stop, the hint
    is the part of the fact up to and including the first one; when it
    has none and is not empty, the hint is the whole fact. *)
Theorem getHintText_first_sentence (mode anyMode : string) (song : Song) :
  mode <> MODES.FACTS ->
  let hint := getHintText mode (Some song) in
  getHintText anyMode None = [] /\
  getHintText anyMode (Some song) <> [] /\
  (In DOT (fact song) ->
   exists sentence rest,
     hint = sentence ++ [DOT] /\ fact song = hint ++ rest /\
     ~ In DOT sentence) /\
  (~ In DOT (fact song) -> fact song <> [] -> hint = fact song).
Proof.
  intros Hm hint. split; [reflexivity|].
  assert (Hmode : String.eqb mode MODES.FACTS = false)
    by (apply String.eqb_neq; exact Hm).
  split; [|split].
  - unfold getHintText.
    destruct (String.eqb anyMode MODES.FACTS).
    + destruct (truthy (region song)); discriminate.
    + destruct (indexOf DOT (fact song)) as [i|] eqn:Ei.
      * apply indexOf_Some in Ei. destruct Ei as (pre & post & E & L & _).
        rewrite E. replace (i + 1) with (S (List.length pre)) by lia.
        destruct pre; discriminate.
      * destruct (fact song); discriminate.
  - intros Hin. subst hint. unfold getHintText. rewrite Hmode.
    destruct (indexOf DOT (fact song)) as [i|] eqn:Ei;
      [|apply indexOf_None in Ei; contradiction].
    apply indexOf_Some in Ei. destruct Ei as (pre & post & E & L & N).
    exists pre, post. rewrite E.
    replace (i + 1) with (List.length (pre ++ [DOT]))
      by (rewrite length_app; cbn; lia).
    replace (pre ++ DOT :: post) with ((pre ++ [DOT]) ++ post)
      by (rewrite <- app_assoc; reflexivity).
    rewrite firstn_app, firstn_all, Nat.sub_diag. cbn [firstn].
    rewrite app_nil_r. auto.
  - intros Hn Hne. subst hint. unfold getHintText. rewrite Hmode.
    apply indexOf_None in Hn. rewrite Hn.
    destruct (fact song); [congruence | reflexivity].
Qed.

Lemma getHintText_first_sentence_witness :
  let hint := getHintText MODES.SPECTRO (Some swampCicada) in
  getHintText MODES.IMAGE None = [] /\
  getHintText MODES.IMAGE (Some swampCicada) <> [] /\
  (In DOT (fact swampCicada) ->
   exists sentence rest,
     hint = sentence ++ [DOT] /\ fact swampCicada = hint ++ rest /\
     ~ In DOT sentence) /\
  (~ In DOT (fact swampCicada) -> fact swampCicada <> [] ->
   hint = fact swampCicada).
Proof.
  apply (getHintText_first_sentence MODES.SPECTRO MODES.IMAGE swampCicada).
  discriminate.
Defined.

(* ------------------------------------------------------------------------- *)
(** ** Answer choices, whatever the pool *)

Lemma buildChoices_shape
    (SONGS : list Song) (region : option jsstring) (correctName : jsstring)
    (rng : Rng) :
  let choices := fst (buildChoices SONGS region correctName rng) in
  1 <= List.length choices <= 4 /\
  count_occ jsstring_eq_dec choices correctName = 1 /\
  (forall n, In n choices ->
     n = correctName \/ In n (poolNames SONGS region)) /\
  (poolNames SONGS region = [] -> choices = [correctName]).
Proof.
  intros choices.
  set (others := othersOf (poolNames SONGS region) correctName).
  set (sh := fst (shuffle others rng)).
  assert (P : Permutation choices (correctName :: firstn 3 sh))
    by apply buildChoices_perm.
  assert (Wo : forall n, In n (firstn 3 sh) -> In n others).
  { intros n Hn. apply In_prefix in Hn. apply shuffle_in in Hn. exact Hn. }
  repeat split.
  - rewrite (Permutation_length P). cbn [List.length]. lia.
  - rewrite (Permutation_length P). cbn [List.length].
    rewrite length_firstn. lia.
  - rewrite (Permutation_count_occ jsstring_eq_dec) in P. rewrite P.
    rewrite count_occ_cons_eq by reflexivity. f_equal.
    apply count_occ_not_In. intros Hc. apply Wo, othersOf_in in Hc.
    destruct Hc as [_ Hc]; congruence.
  - intros n Hn. apply (Permutation_in _ P) in Hn.
    destruct Hn as [<-|Hn]; [left; reflexivity|].
    right. apply Wo, othersOf_in in Hn. tauto.
  - intros He.
    assert (Hs : sh = []).
    { apply length_zero_iff_nil. subst sh. rewrite shuffle_length.
      subst others. rewrite He. reflexivity. }
    rewrite Hs in P. cbn [firstn] in P.
    symmetry in P. apply Permutation_length_1_inv in P. exact P.
Qed.

(** X5.  For every catalog, region, target name and random keys,
    [buildChoices] returns between one and four names, the target name
    among them exactly once, and every other name is a name of the
    region pool; this holds also when the pool does not hold the target,
    and on an empty pool the target name is the only choice. *)
Theorem buildChoices_bounds
    (SONGS : list Song) (region : option jsstring) (correctName : jsstring)
    (rng : Rng) :
  let choices := fst (buildChoices SONGS region correctName rng) in
  1 <= List.length choices <= 4 /\
  count_occ jsstring_eq_dec choices correctName = 1 /\
  (forall n, In n choices ->
     n = correctName \/ In n (poolNames SONGS region)) /\
  (poolNames SONGS region = [] -> choices = [correctName]).
Proof. apply buildChoices_shape. Qed.

(* ------------------------------------------------------------------------- *)
(** ** Region buttons *)

Section EntriesFacts.
Variable V : Type.

Lemma insert_index_perm (e : N * (jsstring * V)) l :
  Permutation (insert_index e l) (e :: l).
Proof.
  induction l as [|x l IH]; cbn [insert_index]; [reflexivity|].
  destruct (N.leb (fst e) (fst x)); [reflexivity|].
  rewrite IH. apply perm_swap.
Qed.

Lemma objectEntries_perm (o : list (jsstring * V)) :
  Permutation (objectEntries o) o.
Proof.
  unfold objectEntries.
  assert (S : Permutation (fold_right insert_index [] (indexed o)) (indexed o)).
  { induction (indexed o) as [|e l IH]; cbn [fold_right]; [reflexivity|].
    rewrite insert_index_perm. apply perm_skip, IH. }
  rewrite (Permutation_map snd S). clear S.
  unfold indexed, named. induction o as [|e o IH]; [reflexivity|].
  cbn [flat_map filter]. destruct (arrayIndex (fst e)); cbn [app map snd].
  - apply perm_skip, IH.
  - rewrite <- Permutation_middle. apply perm_skip, IH.
Qed.
End EntriesFacts.

Lemma jseqb_sym (a b : jsstring) : jseqb a b = jseqb b a.
Proof.
  destruct (jseqb b a) eqn:E.
  - apply jseqb_eq in E. subst. apply jseqb_refl.
  - apply jseqb_neq. apply jseqb_neq in E. congruence.
Qed.

Lemma bump_getCount r counts k :
  getCount k (bump r counts)
  = if jseqb r k then S (getCount k counts) else getCount k counts.
Proof.
  induction counts as [|[k' n] counts IH]; cbn [bump getCount].
  - destruct (jseqb r k); reflexivity.
  - destruct (jseqb k' r) eqn:E; cbn [getCount].
    + apply jseqb_eq in E; subst k'. destruct (jseqb r k); reflexivity.
    + destruct (jseqb k' k) eqn:E'; [|exact IH].
      apply jseqb_eq in E'; subst k'. rewrite jseqb_sym, E. reflexivity.
Qed.

Lemma bump_keys r counts x :
  In x (map fst (bump r counts)) <-> x = r \/ In x (map fst counts).
Proof.
  induction counts as [|[k n] counts IH]; cbn [bump map fst In].
  - intuition.
  - destruct (jseqb k r) eqn:E; cbn [map fst In].
    + apply jseqb_eq in E; subst k. intuition.
    + rewrite IH. intuition.
Qed.

Lemma bump_ok r counts : countsOk counts -> countsOk (bump r counts).
Proof.
  intros [ND Pos]. induction counts as [|[k n] counts IH]; cbn [bump].
  - split; cbn; repeat constructor; auto.
  - inversion ND as [|? ? Hk ND']; subst. inversion Pos as [|? ? Hn Pos']; subst.
    destruct (jseqb k r) eqn:E.
    + split; cbn [map fst]; constructor; auto. cbn; lia.
    + destruct (IH ND' Pos') as [ND2 Pos2].
      split; cbn [map fst]; constructor; auto.
      intros H. apply bump_keys in H. destruct H as [->|H]; [|contradiction].
      rewrite jseqb_refl in E. discriminate.
Qed.

Lemma list_sum_step (a : nat) (l : list nat) :
  list_sum (a :: l) = a + list_sum l.
Proof. reflexivity. Qed.

Lemma bump_sum r counts :
  list_sum (map snd (bump r counts)) = S (list_sum (map snd counts)).
Proof.
  induction counts as [|[k n] counts IH]; cbn [bump]; [reflexivity|].
  destruct (jseqb k r); cbn [map snd]; rewrite !list_sum_step; [lia|].
  rewrite IH. lia.
Qed.

Lemma countsOk_In counts k n :
  countsOk counts -> (In (k, n) counts <-> 0 < n /\ getCount k counts = n).
Proof.
  intros [ND Pos]. induction counts as [|[k' n'] counts IH];
    cbn [In getCount].
  - split; [tauto | lia].
  - inversion ND as [|? ? Hk ND']; subst. inversion Pos as [|? ? Hn Pos']; subst.
    cbn in Hn. specialize (IH ND' Pos').
    destruct (jseqb k' k) eqn:E.
    + apply jseqb_eq in E; subst k'. split.
      * intros [H|H]; [injection H as <-; auto|].
        exfalso. apply Hk. apply (in_map fst) in H. exact H.
      * intros [_ ->]. left; reflexivity.
    + apply jseqb_neq in E. rewrite <- IH. split; [|tauto].
      intros [H|H]; [congruence | exact H].
Qed.

Lemma regionCounts_spec (SONGS : list Song) :
  countsOk (regionCounts SONGS) /\
  (forall k, getCount k (regionCounts SONGS) = countKey k SONGS) /\
  list_sum (map snd (regionCounts SONGS)) = List.length SONGS /\
  (forall k, In k (map fst (regionCounts SONGS)) ->
     exists s, In s SONGS /\ regionKey s = k).
Proof.
  unfold regionCounts.
  assert (G : forall l acc,
    countsOk acc ->
    countsOk (fold_left (fun c s => bump (regionKey s) c) l acc) /\
    (forall k, getCount k (fold_left (fun c s => bump (regionKey s) c) l acc)
               = getCount k acc + countKey k l) /\
    list_sum (map snd (fold_left (fun c s => bump (regionKey s) c) l acc))
    = list_sum (map snd acc) + List.length l /\
    (forall k, In k (map fst (fold_left (fun c s => bump (regionKey s) c) l acc)) ->
       In k (map fst acc) \/ exists s, In s l /\ regionKey s = k)).
  { induction l as [|s l IH]; intros acc Hok; cbn [fold_left].
    - unfold countKey; cbn. split; [exact Hok|]. repeat split; auto.
    - destruct (IH (bump (regionKey s) acc) (bump_ok _ _ Hok))
        as (I1 & I2 & I3 & I4).
      split; [exact I1|]. split; [|split].
      + intros k. rewrite I2, bump_getCount. unfold countKey. cbn [filter].
        destruct (jseqb (regionKey s) k); cbn [List.length]; lia.
      + rewrite I3, bump_sum. cbn [List.length]. lia.
      + intros k Hk. apply I4 in Hk. destruct Hk as [Hk|(s' & H1 & H2)].
        * apply bump_keys in Hk. destruct Hk as [->|Hk]; [|left; exact Hk].
          right. exists s. split; [left; reflexivity | reflexivity].
        * right. exists s'. split; [right; exact H1 | exact H2]. }
  assert (Hnil : countsOk []) by (split; constructor).
  destruct (G SONGS [] Hnil) as (G1 & G2 & G3 & G4).
  split; [exact G1|]. split; [exact G2|]. split; [exact G3|].
  intros k Hk. destruct (G4 k Hk) as [[]|H]; exact H.
Qed.

Lemma regionKey_truthy (s : Song) : truthy (regionKey s) = true.
Proof. unfold regionKey. destruct (truthy (region s)) eqn:E; [exact E | reflexivity]. Qed.

(** The entries behind the buttons. *)
Lemma regionButtons_In (SONGS : list Song) (name : jsstring) (n : nat) :
  In (name, n) (regionButtons SONGS) <->
  5 < n /\ countKey name SONGS = n.
Proof.
  destruct (regionCounts_spec SONGS) as (Hok & Hget & _).
  unfold regionButtons. rewrite filter_In. cbn [snd].
  rewrite Nat.ltb_lt.
  assert (E : In (name, n) (objectEntries (regionCounts SONGS))
              <-> In (name, n) (regionCounts SONGS)).
  { split; apply Permutation_in; [|symmetry]; apply objectEntries_perm. }
  rewrite E, (countsOk_In _ name n Hok), Hget. split; [tauto|].
  intros [H1 H2]. repeat split; auto; lia.
Qed.



Lemma countKey_named (SONGS : list Song) (name : jsstring) :
  name <> UNKNOWN_REGION -> truthy name = true ->
  countKey name SONGS = List.length (getRegionPool SONGS (Some name)).
Proof.
  intros Hu Ht. unfold countKey, getRegionPool. rewrite Ht. f_equal.
  apply filter_ext. intros s. unfold regionKey.
  destruct (truthy (region s)) eqn:E; [reflexivity|].
  destruct (region s); [|discriminate E].
  transitivity false.
  - apply jseqb_neq. congruence.
  - symmetry. destruct name; [discriminate Ht | reflexivity].
Qed.

Lemma regionButtons_truthy (SONGS : list Song) (name : jsstring) (n : nat) :
  In (name, n) (regionButtons SONGS) -> truthy name = true.
Proof.
  intros H. apply regionButtons_In in H. destruct H as [H5 Hc].
  unfold countKey in Hc.
  destruct (filter (fun s => jseqb (regionKey s) name) SONGS) as [|s l] eqn:E;
    [cbn in Hc; lia|].
  assert (Hs : In s (filter (fun s => jseqb (regionKey s) name) SONGS))
    by (rewrite E; left; reflexivity).
  apply filter_In in Hs. destruct Hs as [_ Hs]. apply jseqb_eq in Hs.
  rewrite <- Hs. apply regionKey_truthy.
Qed.





(* ------------------------------------------------------------------------- *)
(** ** Sessions, buttons and whole games *)

Section SessionFacts.
Variable SONGS : list Song.

Lemma handleAnswer_keeps (st : State) (o : option Song) :
  let st' := handleAnswer st o in
  sessionSongs st' = sessionSongs st /\
  sessionIndex st' = sessionIndex st /\
  currentSong st' = currentSong st /\
  answerButtons st' = answerButtons st /\
  currentRegion st' = currentRegion st /\
  currentMode st' = currentMode st.
Proof.
  unfold handleAnswer.
  destruct (hasAnswered st); [cbn; tauto|].
  destruct (currentSong st) eqn:Ec; [|cbn; rewrite Ec; tauto].
  destruct o; [|cbn; rewrite Ec; tauto].
  destruct (jseqb _ _); cbn [negb].
  - destruct (TOTAL_ROUNDS <=? _); cbn; rewrite ?Ec; tauto.
  - destruct (hadWrongGuess st); cbn; rewrite ?Ec; tauto.
Qed.

Lemma findSong_found (song : Song) :
  In song SONGS ->
  exists o, findSong SONGS (commonName song) = Some o /\
            In o SONGS /\ commonName o = commonName song.
Proof.
  intros Hin. unfold findSong.
  destruct (find (fun s => jseqb (commonName s) (commonName song)) SONGS)
    as [o|] eqn:E.
  - apply find_some in E. destruct E as [E1 E2]. apply jseqb_eq in E2.
    exists o. auto.
  - exfalso. apply (find_none _ _ E) in Hin. rewrite jseqb_refl in Hin.
    discriminate.
Qed.

Lemma renderAnswers_buttons (st : State) (song : Song) (rng : Rng) :
  let buttons := fst (renderAnswers SONGS st song rng) in
  List.length buttons <= 4 /\
  incl buttons SONGS /\
  (In song SONGS ->
   exists b, In b buttons /\ commonName b = commonName song).
Proof.
  unfold renderAnswers.
  pose proof (buildChoices_shape SONGS (currentRegion st) (commonName song) rng)
    as (L & C & _).
  destruct (buildChoices SONGS (currentRegion st) (commonName song) rng)
    as [choices rng'].
  cbv zeta. cbn [fst] in *. split; [|split].
  - transitivity (List.length choices); [|lia].
    clear. induction choices as [|n l IH]; cbn [flat_map List.length]; [lia|].
    rewrite length_app. destruct (findSong SONGS n); cbn [List.length]; lia.
  - intros b Hb. apply in_flat_map in Hb. destruct Hb as (n & _ & Hb).
    unfold findSong in Hb.
    destruct (find _ SONGS) as [o|] eqn:E; [|destruct Hb].
    destruct Hb as [<-|[]]. apply find_some in E. tauto.
  - intros Hin. destruct (findSong_found song Hin) as (o & F & _ & N).
    exists o. split; [|exact N]. apply in_flat_map.
    exists (commonName song). split.
    + apply (count_occ_In jsstring_eq_dec). lia.
    + rewrite F. left; reflexivity.
Qed.

Lemma renderRound_buttons (st : State) (rng : Rng) (song : Song) :
  nth_error (sessionSongs st) (sessionIndex st) = Some song ->
  answerButtons (fst (renderRound SONGS st rng))
  = fst (renderAnswers SONGS st song rng).
Proof.
  intros H. unfold renderRound.
  destruct (sessionSongs st) eqn:E.
  - destruct (sessionIndex st); discriminate H.
  - rewrite H. destruct (renderAnswers SONGS st song rng); reflexivity.
Qed.

(** A state in which [renderRound] has just opened the round of a
    session song. *)
Lemma renderRound_session (st : State) (rng : Rng) (song : Song) :
  nth_error (sessionSongs st) (sessionIndex st) = Some song ->
  incl (sessionSongs st) SONGS ->
  List.length (sessionSongs st) <= TOTAL_ROUNDS ->
  List.length (sessionSongs st) <= List.length SONGS ->
  roundsAnswered st <= List.length (sessionSongs st) ->
  SessionInv SONGS (fst (renderRound SONGS st rng)).
Proof.
  intros Hn Hc Hl Hs Hr.
  destruct (renderRound_keeps SONGS st rng) as (_ & _ & K3 & _ & K5 & _).
  destruct (renderRound_opens SONGS st rng song Hn) as (O1 & _).
  pose proof (renderRound_buttons st rng song Hn) as B.
  destruct (renderAnswers_buttons st song rng) as (B1 & B2 & B3).
  assert (Hin : In song (sessionSongs st)) by (eapply nth_error_In; exact Hn).
  constructor; rewrite ?K3, ?K5, ?B; try assumption.
  intros cur Hcur. rewrite O1 in Hcur. injection Hcur as <-.
  split; [exact Hin|]. apply B3, Hc, Hin.
Qed.

Lemma initial_session : SessionInv SONGS initial.
Proof.
  constructor; cbn; unfold TOTAL_ROUNDS; try lia; try discriminate;
    intros ? [].
Qed.

Lemma handleAnswer_session st o :
  Inv st -> SessionInv SONGS st -> SessionInv SONGS (handleAnswer st o).
Proof.
  intros I [a b c d e f g].
  destruct (handleAnswer_keeps st o) as (K1 & K2 & K3 & K4 & _).
  constructor; rewrite ?K1, ?K3, ?K4; try assumption.
  rewrite handleAnswer_rounds.
  destruct (answersCorrectly st o) eqn:Ea; [|exact d].
  destruct (answersCorrectly_inv st o Ea) as (cur & obj & Ec & _ & Eh & _).
  assert (Hc : currentSong st <> None) by (rewrite Ec; discriminate).
  pose proof (inv_index st I Eh Hc) as Hi.
  pose proof (inv_target st I Eh Hc) as Ht. rewrite Ec in Ht.
  assert (Hlt : sessionIndex st < List.length (sessionSongs st))
    by (apply nth_error_Some; rewrite <- Ht; discriminate).
  lia.
Qed.

Lemma startNewGame_session st rng :
  SessionInv SONGS st -> SessionInv SONGS (fst (startNewGame SONGS st rng)).
Proof.
  intros J.
  destruct (getRegionPool SONGS (currentRegion st)) as [|p pool'] eqn:Ep.
  - rewrite startNewGame_refuses by exact Ep. exact J.
  - unfold startNewGame. rewrite Ep.
    destruct (shuffle (p :: pool') rng) as [sh rng1] eqn:Es.
    assert (Psh : Permutation sh (p :: pool'))
      by (change sh with (fst (sh, rng1)); rewrite <- Es; apply shuffle_perm).
    assert (Hpool : incl (p :: pool') SONGS /\
                    List.length (p :: pool') <= List.length SONGS).
    { rewrite <- Ep. unfold getRegionPool.
      destruct (currentRegion st) as [n|]; [destruct (truthy n)|];
        try (split; [apply incl_refl | lia]).
      split; [intros s Hs; apply filter_In in Hs; tauto | apply filter_length_le]. }
    destruct Hpool as [Hp1 Hp2].
    destruct sh as [|x sh'];
      [apply Permutation_length in Psh; discriminate Psh|].
    apply renderRound_session with (song := x); cbn [sessionSongs sessionIndex
      roundsAnswered]; try reflexivity.
    + intros s Hs. apply In_prefix in Hs. apply Hp1.
      apply (Permutation_in _ Psh). exact Hs.
    + rewrite length_firstn. lia.
    + rewrite length_firstn. apply Permutation_length in Psh. lia.
    + lia.
Qed.

Lemma goToNextRound_session st rng :
  SessionInv SONGS st -> SessionInv SONGS (fst (goToNextRound SONGS st rng)).
Proof.
  intros J. pose proof J as [a b c d e f g]. unfold goToNextRound.
  destruct (hasAnswered st); cbn [negb]; [|exact J].
  destruct (TOTAL_ROUNDS <=? roundsAnswered st); [exact J|].
  match goal with |- context [renderRound SONGS ?s rng] => set (st1 := s) end.
  destruct (sessionIndex st1 <? List.length (sessionSongs st1)) eqn:El.
  - apply Nat.ltb_lt in El.
    destruct (nth_error (sessionSongs st1) (sessionIndex st1)) as [song|] eqn:En;
      [|apply nth_error_None in En; lia].
    apply renderRound_session with (song := song); assumption.
  - constructor; assumption.
Qed.

Lemma step_session st rng e :
  Inv st -> SessionInv SONGS st ->
  SessionInv SONGS (fst (step SONGS (st, rng) e)).
Proof.
  intros I J. destruct e; cbn [step fst];
    unfold setModeAndStart, chooseRegion.
  - apply handleAnswer_session; assumption.
  - apply goToNextRound_session; exact J.
  - apply startNewGame_session. destruct J; constructor; assumption.
  - apply startNewGame_session. destruct J; constructor; assumption.
  - apply startNewGame_session. destruct J; constructor; assumption.
  - apply startNewGame_session. destruct J; constructor; assumption.
  - destruct J; constructor; assumption.
Qed.

Lemma reachable_session st : reachable SONGS st -> SessionInv SONGS st.
Proof.
  induction 1 as [|st rng e R IH]; [apply initial_session|].
  apply step_session; [apply (reachable_inv SONGS); exact R | exact IH].
Qed.
End SessionFacts.

(** X9.  In every state of the page there are at most four answer
    buttons, each for a song of the catalog, and while a round is open
    one of them is for a song with the target's common name: a click on
    it is taken as the correct answer. *)
Theorem open_round_is_answerable
    (SONGS : list Song) (st : State) (cur : Song) :
  reachable SONGS st ->
  currentSong st = Some cur ->
  hasAnswered st = false ->
  List.length (answerButtons st) <= 4 /\
  incl (answerButtons st) SONGS /\
  In cur SONGS /\
  exists b, In b (answerButtons st) /\
            commonName b = commonName cur /\
            answersCorrectly st (Some b) = true /\
            hasAnswered (handleAnswer st (Some b)) = true.
Proof.
  intros R Hc Hh. pose proof (reachable_session SONGS st R) as J.
  destruct (sess_target SONGS st J cur Hc) as (Hin & b & Hb & Hn).
  split; [apply (sess_buttons SONGS st J)|].
  split; [apply (sess_buttons_catalog SONGS st J)|].
  split; [apply (sess_catalog SONGS st J), Hin|].
  exists b. split; [exact Hb|]. split; [exact Hn|].
  split.
  - unfold answersCorrectly. rewrite Hh, Hc. cbn [negb andb].
    apply jseqb_eq. exact Hn.
  - apply (handleAnswer_correct st cur b Hc Hh Hn).
Qed.

Lemma open_round_is_answerable_witness :
  let st := fst started in
  List.length (answerButtons st) <= 4 /\
  incl (answerButtons st) SONGS_DATA /\
  In periodicalCicada SONGS_DATA /\
  exists b, In b (answerButtons st) /\
            commonName b = commonName periodicalCicada /\
            answersCorrectly st (Some b) = true /\
            hasAnswered (handleAnswer st (Some b)) = true.
Proof.
  apply (open_round_is_answerable SONGS_DATA (fst started) periodicalCicada).
  - exact started_reachable.
  - vm_compute. reflexivity.
  - vm_compute. reflexivity.
Defined.

(** X10.  A game can only be completed on five session songs: in every
    state of the page the number of answered rounds is at most the
    number of session songs, which is at most five and at most the size
    of the catalog; so in a complete game there are exactly five session
    songs, and a catalog of fewer than five songs never completes a
    game. *)
Theorem complete_needs_five_songs (SONGS : list Song) (st : State) :
  reachable SONGS st ->
  roundsAnswered st <= List.length (sessionSongs st) /\
  List.length (sessionSongs st) <= TOTAL_ROUNDS /\
  List.length (sessionSongs st) <= List.length SONGS /\
  incl (sessionSongs st) SONGS /\
  (gameComplete st = true ->
   List.length (sessionSongs st) = TOTAL_ROUNDS /\
   roundsAnswered st = TOTAL_ROUNDS /\
   TOTAL_ROUNDS <= List.length SONGS) /\
  (List.length SONGS < TOTAL_ROUNDS -> gameComplete st = false).
Proof.
  intros R. pose proof (reachable_session SONGS st R) as J.
  pose proof (sess_rounds SONGS st J) as H1.
  pose proof (sess_length SONGS st J) as H2.
  pose proof (sess_size SONGS st J) as H3.
  repeat split; try assumption; try apply (sess_catalog SONGS st J).
  - unfold gameComplete in H. apply Nat.leb_le in H. lia.
  - unfold gameComplete in H. apply Nat.leb_le in H. lia.
  - unfold gameComplete in H. apply Nat.leb_le in H. lia.
  - intros Hl. unfold gameComplete. apply Nat.leb_gt. lia.
Qed.

Lemma complete_needs_five_songs_witness :
  let st := fst twoPlayed in
  roundsAnswered st <= List.length (sessionSongs st) /\
  List.length (sessionSongs st) <= TOTAL_ROUNDS /\
  List.length (sessionSongs st) <= List.length twoSongs /\
  incl (sessionSongs st) twoSongs /\
  (gameComplete st = true ->
   List.length (sessionSongs st) = TOTAL_ROUNDS /\
   roundsAnswered st = TOTAL_ROUNDS /\
   TOTAL_ROUNDS <= List.length twoSongs) /\
  (List.length twoSongs < TOTAL_ROUNDS -> gameComplete st = false).
Proof.
  apply (complete_needs_five_songs twoSongs (fst twoPlayed)).
  unfold twoPlayed, playRound.
  repeat match goal with
  | |- reachable _ (fst (step _ ?w _)) =>
      rewrite (surjective_pairing w); apply reach_step
  end.
  exact (reach_step twoSongs initial sample_tape ClickStart
           (reach_initial twoSongs)).
Defined.

(** X11.  Wrong guesses in an open round change nothing but the
    wrong-guess flag, and only the first one does: the state after any
    number of wrong guesses is the state after the first. *)
Theorem wrong_guesses_after_first_ignored
    (st : State) (cur w : Song) (ws : list Song) :
  currentSong st = Some cur ->
  hasAnswered st = false ->
  Forall (wrong_for cur) (w :: ws) ->
  guesses st (w :: ws) = handleAnswer st (Some w) /\
  handleAnswer st (Some w)
  = {| currentMode := currentMode st; currentRegion := currentRegion st;
       sessionSongs := sessionSongs st; sessionIndex := sessionIndex st;
       currentSong := currentSong st;
       roundsAnswered := roundsAnswered st; scoreCorrect := scoreCorrect st;
       hasAnswered := false; hadWrongGuess := true;
       answerButtons := answerButtons st;
       nextBtnDisabled := nextBtnDisabled st;
       endOverlayHidden := endOverlayHidden st |}.
Proof.
  intros Hc Hh Hf. inversion Hf as [|? ? Hw Hws]; subst.
  assert (E : handleAnswer st (Some w)
    = {| currentMode := currentMode st; currentRegion := currentRegion st;
         sessionSongs := sessionSongs st; sessionIndex := sessionIndex st;
         currentSong := currentSong st;
         roundsAnswered := roundsAnswered st; scoreCorrect := scoreCorrect st;
         hasAnswered := false; hadWrongGuess := true;
         answerButtons := answerButtons st;
         nextBtnDisabled := nextBtnDisabled st;
         endOverlayHidden := endOverlayHidden st |}).
  { apply jseqb_neq in Hw. unfold handleAnswer. rewrite Hh, Hc, Hw.
    cbn [negb]. destruct (hadWrongGuess st) eqn:Eg; cbn [negb].
    - destruct st; cbn in *. subst. reflexivity.
    - reflexivity. }
  split; [|exact E].
  unfold guesses. cbn [map fold_left]. rewrite E.
  set (st1 := {| currentMode := currentMode st |}).
  clear E Hf. induction Hws as [|x ws Hx _ IH]; [reflexivity|].
  cbn [map fold_left].
  replace (handleAnswer st1 (Some x)) with st1; [exact IH|].
  apply jseqb_neq in Hx. unfold handleAnswer. cbn [hasAnswered st1 currentSong
    hadWrongGuess]. rewrite Hc, Hx. reflexivity.
Qed.

Lemma wrong_guesses_after_first_ignored_witness :
  guesses (fst started) [swampCicada; swampCicada]
  = handleAnswer (fst started) (Some swampCicada) /\
  handleAnswer (fst started) (Some swampCicada)
  = {| currentMode := currentMode (fst started);
       currentRegion := currentRegion (fst started);
       sessionSongs := sessionSongs (fst started);
       sessionIndex := sessionIndex (fst started);
       currentSong := currentSong (fst started);
       roundsAnswered := roundsAnswered (fst started);
       scoreCorrect := scoreCorrect (fst started);
       hasAnswered := false; hadWrongGuess := true;
       answerButtons := answerButtons (fst started);
       nextBtnDisabled := nextBtnDisabled (fst started);
       endOverlayHidden := endOverlayHidden (fst started) |}.
Proof.
  apply (wrong_guesses_after_first_ignored (fst started) periodicalCicada
           swampCicada [swampCicada]).
  - vm_compute. reflexivity.
  - vm_compute. reflexivity.
  - repeat constructor; unfold wrong_for; vm_compute; discriminate.
Defined.

Section PlayFacts.
Variable SONGS : list Song.

Lemma guesses_inv (ws : list Song) : forall st, Inv st -> Inv (guesses st ws).
Proof.
  induction ws as [|w ws IH]; intros st I; [exact I|].
  unfold guesses in *. cbn [map fold_left]. apply IH, handleAnswer_inv, I.
Qed.

Lemma guesses_sessionSongs (ws : list Song) : forall st,
  sessionSongs (guesses st ws) = sessionSongs st.
Proof.
  induction ws as [|w ws IH]; intros st; [reflexivity|].
  unfold guesses in *. cbn [map fold_left].
  rewrite IH. apply handleAnswer_sessionSongs.
Qed.

(** Next after an answered round that is not the last. *)
Lemma goToNextRound_fresh (st : State) (rng : Rng) :
  Inv st -> hasAnswered st = true ->
  roundsAnswered st < List.length (sessionSongs st) ->
  roundsAnswered st < TOTAL_ROUNDS ->
  let next := fst (goToNextRound SONGS st rng) in
  hasAnswered next = false /\ hadWrongGuess next = false /\
  currentSong next <> None /\
  roundsAnswered next = roundsAnswered st /\
  scoreCorrect next = scoreCorrect st /\
  sessionSongs next = sessionSongs st.
Proof.
  intros I Hh Hl Hr.
  destruct (goToNextRound_opens SONGS st rng I Hh Hl Hr) as (O1 & _ & O3 & _).
  cbv zeta. rewrite goToNextRound_rounds, goToNextRound_sessionSongs.
  repeat split; try assumption.
  - unfold goToNextRound in *. rewrite Hh in *. cbn [negb] in *.
    apply Nat.leb_gt in Hr. rewrite Hr in *.
    match goal with |- context [renderRound SONGS ?s rng] => set (st1 := s) in * end.
    destruct (sessionIndex st1 <? List.length (sessionSongs st1)).
    + destruct (nth_error (sessionSongs st1) (sessionIndex st1)) as [song|] eqn:En.
      * apply (renderRound_opens SONGS st1 rng song En).
      * unfold renderRound in O1. rewrite En in O1.
        destruct (sessionSongs st1); cbn in O1; congruence.
    + cbn in O1. congruence.
  - pose proof (step_score_monotone SONGS st rng ClickNext eq_refl) as M.
    cbn [step fst] in M.
    unfold goToNextRound in *. rewrite Hh in *. cbn [negb] in *.
    apply Nat.leb_gt in Hr. rewrite Hr in *.
    match goal with |- context [renderRound SONGS ?s rng] => set (st1 := s) in * end.
    destruct (sessionIndex st1 <? List.length (sessionSongs st1)); [|reflexivity].
    destruct (renderRound_keeps SONGS st1 rng) as (_ & _ & _ & _ & _ & K6 & _).
    rewrite K6. reflexivity.
Qed.

Lemma firstTries_cons (r : list Song * Song) (rest : list (list Song * Song)) :
  firstTries (r :: rest)
  = (match fst r with [] => 1 | _ :: _ => 0 end) + firstTries rest.
Proof. unfold firstTries. cbn [filter]. destruct (fst r); reflexivity. Qed.

Lemma play_progress (rounds : list (list Song * Song)) : forall w,
  Inv (fst w) ->
  hasAnswered (fst w) = false -> hadWrongGuess (fst w) = false ->
  currentSong (fst w) <> None ->
  List.length (sessionSongs (fst w)) = TOTAL_ROUNDS ->
  validPlay SONGS w rounds ->
  roundsAnswered (fst w) + List.length rounds <= TOTAL_ROUNDS ->
  let final := fst (play SONGS w rounds) in
  Inv final /\
  sessionSongs final = sessionSongs (fst w) /\
  roundsAnswered final = roundsAnswered (fst w) + List.length rounds /\
  scoreCorrect final = scoreCorrect (fst w) + firstTries rounds /\
  (roundsAnswered final < TOTAL_ROUNDS ->
   hasAnswered final = false /\
   currentSong final = nth_error (sessionSongs final) (roundsAnswered final) /\
   currentSong final <> None) /\
  (rounds <> [] -> roundsAnswered final = TOTAL_ROUNDS ->
   gameComplete final = true /\ hasAnswered final = true /\
   endOverlayHidden final = false /\ nextBtnDisabled final = true).
Proof.
  induction rounds as [|r rest IH]; intros w I Hh Hg Hc Hl Hv Hle.
  - cbn [play fold_left List.length]. unfold firstTries; cbn [filter List.length].
    rewrite !Nat.add_0_r.
    split; [exact I|]. split; [reflexivity|]. split; [reflexivity|].
    split; [reflexivity|]. split; [|congruence].
    intros _. split; [exact Hh|]. split; [|exact Hc].
    rewrite <- (inv_index (fst w) I Hh Hc). apply (inv_target (fst w) I Hh Hc).
  - destruct Hv as [(cur & Ec & Hw & Hgood) Hv].
    destruct (guesses_wrong (fst r) (fst w) cur Ec Hh Hw)
      as (T1 & T2 & T3 & T4 & T5 & _).
    set (tried := guesses (fst w) (fst r)) in *.
    destruct (handleAnswer_correct tried cur (snd r) T1 T2 Hgood)
      as (D1 & D2 & D3 & D4 & D5 & _ & D7 & _).
    set (done := handleAnswer tried (Some (snd r))) in *.
    assert (Id : Inv done) by (apply handleAnswer_inv, guesses_inv, I).
    assert (Sd : sessionSongs done = sessionSongs (fst w))
      by (rewrite D7; apply guesses_sessionSongs).
    assert (Scd : scoreCorrect done
                  = scoreCorrect (fst w)
                    + match fst r with [] => 1 | _ :: _ => 0 end).
    { rewrite D3, T3, T4, Hg. destruct (fst r); lia. }
    cbn [List.length] in Hle. cbn [play fold_left].
    change (fold_left (playRoundWith SONGS) rest (playRoundWith SONGS w r))
      with (play SONGS (playRoundWith SONGS w r) rest).
    unfold playRoundWith in *. fold tried in Hv |- *. fold done in Hv |- *.
    destruct (Nat.lt_ge_cases (roundsAnswered done) TOTAL_ROUNDS) as [Hlt|Hge].
    + assert (Hls : roundsAnswered done < List.length (sessionSongs done))
        by (rewrite Sd, Hl; exact Hlt).
      destruct (goToNextRound_fresh done (snd w) Id D1 Hls Hlt)
        as (N1 & N2 & N3 & N4 & N5 & N6).
      pose proof (goToNextRound_inv SONGS done (snd w) Id) as In'.
      set (w1 := goToNextRound SONGS done (snd w)) in *.
      assert (Hl1 : List.length (sessionSongs (fst w1)) = TOTAL_ROUNDS)
        by (rewrite N6, Sd; exact Hl).
      assert (Hle1 : roundsAnswered (fst w1) + List.length rest <= TOTAL_ROUNDS)
        by (rewrite N4, D2, T5; lia).
      destruct (IH w1 In' N1 N2 N3 Hl1 Hv Hle1)
        as (F1 & F2 & F3 & F4 & F5 & F6).
      split; [exact F1|]. split; [rewrite F2, N6; exact Sd|].
      split; [rewrite F3, N4, D2, T5; cbn [List.length]; lia|].
      split; [rewrite F4, N5, Scd, firstTries_cons; lia|].
      split; [exact F5|].
      intros _ H5. destruct rest as [|r2 rest'].
      * exfalso. cbn [play fold_left] in H5. rewrite N4 in H5. lia.
      * apply F6; [discriminate | exact H5].
    + assert (Hrest : rest = []).
      { destruct rest; [reflexivity|]. cbn [List.length] in Hle.
        rewrite D2, T5 in Hge. lia. }
      subst rest.
      assert (E : goToNextRound SONGS done (snd w) = (done, snd w)).
      { unfold goToNextRound. rewrite D1. cbn [negb].
        apply Nat.leb_le in Hge. rewrite Hge. reflexivity. }
      rewrite E. cbn [play fold_left fst List.length].
      assert (Gc : gameComplete done = true)
        by (unfold gameComplete; apply Nat.leb_le; exact Hge).
      split; [exact Id|]. split; [exact Sd|].
      split; [rewrite D2, T5; lia|].
      split; [rewrite Scd, firstTries_cons; unfold firstTries; cbn; lia|].
      split; [lia|].
      intros _ _. rewrite D4, D5, Gc. auto.
Qed.
End PlayFacts.

(** X12.  A whole game: on a region pool of at least five songs, after
    [startNewGame] and any play of at most five rounds (in each round
    any wrong guesses, then the right answer, then Next), the number of
    answered rounds is the number of rounds played and the score is the
    number of rounds answered without a wrong guess; after fewer than
    five rounds the next session song is the open target, and after five
    the game is complete, with the end overlay shown and Next
    disabled. *)
Theorem whole_game_score
    (SONGS : list Song) (st : State) (rng : Rng)
    (rounds : list (list Song * Song)) :
  reachable SONGS st ->
  TOTAL_ROUNDS <= List.length (getRegionPool SONGS (currentRegion st)) ->
  validPlay SONGS (startNewGame SONGS st rng) rounds ->
  List.length rounds <= TOTAL_ROUNDS ->
  let fresh := fst (startNewGame SONGS st rng) in
  let final := fst (play SONGS (startNewGame SONGS st rng) rounds) in
  roundsAnswered final = List.length rounds /\
  scoreCorrect final = firstTries rounds /\
  sessionSongs final = sessionSongs fresh /\
  (List.length rounds < TOTAL_ROUNDS ->
   hasAnswered final = false /\
   currentSong final = nth_error (sessionSongs fresh) (List.length rounds) /\
   currentSong final <> None) /\
  (List.length rounds = TOTAL_ROUNDS ->
   gameComplete final = true /\ hasAnswered final = true /\
   endOverlayHidden final = false /\ nextBtnDisabled final = true).
Proof.
  intros R Hpool Hv Hlen fresh final.
  assert (Hne : getRegionPool SONGS (currentRegion st) <> []).
  { intros E. rewrite E in Hpool. cbn in Hpool. unfold TOTAL_ROUNDS in Hpool. lia. }
  destruct (startNewGame_starts SONGS st rng Hne)
    as (S1 & _ & S3 & _ & S5 & S6 & S7 & S8 & _).
  fold fresh in S1, S3, S5, S6, S7, S8.
  assert (I : Inv fresh)
    by (apply startNewGame_inv, (reachable_inv SONGS), R).
  assert (L : List.length (sessionSongs fresh) = TOTAL_ROUNDS).
  { rewrite S1, length_firstn, shuffle_length. lia. }
  assert (Hle : roundsAnswered fresh + List.length rounds <= TOTAL_ROUNDS)
    by (rewrite S5; exact Hlen).
  destruct (play_progress SONGS rounds (startNewGame SONGS st rng)
              I S7 S8 S3 L Hv Hle) as (_ & F2 & F3 & F4 & F5 & F6).
  fold final fresh in F2, F3, F4, F5, F6.
  rewrite S5 in F3. rewrite S6 in F4. cbn [Nat.add] in F3, F4.
  split; [exact F3|]. split; [exact F4|]. split; [exact F2|]. split.
  - intros Hlt. rewrite F3, F2 in F5. apply F5. exact Hlt.
  - intros H5. apply F6; [|rewrite F3; exact H5].
    intros ->. discriminate H5.
Qed.

Lemma whole_game_score_witness :
  let fresh := fst (startNewGame SONGS_DATA initial sample_tape) in
  let final :=
    fst (play SONGS_DATA (startNewGame SONGS_DATA initial sample_tape)
           samplePlay) in
  roundsAnswered final = List.length samplePlay /\
  scoreCorrect final = firstTries samplePlay /\
  sessionSongs final = sessionSongs fresh /\
  (List.length samplePlay < TOTAL_ROUNDS ->
   hasAnswered final = false /\
   currentSong final
   = nth_error (sessionSongs fresh) (List.length samplePlay) /\
   currentSong final <> None) /\
  (List.length samplePlay = TOTAL_ROUNDS ->
   gameComplete final = true /\ hasAnswered final = true /\
   endOverlayHidden final = false /\ nextBtnDisabled final = true).
Proof.
  apply (whole_game_score SONGS_DATA initial sample_tape samplePlay).
  - apply reach_initial.
  - vm_compute. lia.
  - unfold samplePlay. cbn [validPlay fst snd].
    repeat match goal with
    | |- _ /\ _ => split
    | |- exists cur, currentSong ?s = Some cur /\ _ =>
        let c := eval vm_compute in (currentSong s) in
        match c with Some ?x => exists x end
    | |- currentSong _ = Some _ => vm_compute; reflexivity
    | |- Forall _ _ => constructor
    | |- wrong_for _ _ => unfold wrong_for; vm_compute; discriminate
    | |- commonName _ = commonName _ => vm_compute; reflexivity
    | |- True => exact I
    end.
  - vm_compute. lia.
Defined.

(* ------------------------------------------------------------------------- *)
(** ** The analytics counters *)

Section MapFacts.
Variable V : Type.

Lemma ensure_keys (k : jsstring) (fresh : V) (o : list (jsstring * V)) x :
  In x (map fst (Analytics.ensure k fresh o)) <-> x = k \/ In x (map fst o).
Proof.
  induction o as [|[k' v] o IH]; cbn [Analytics.ensure map fst In].
  - intuition.
  - destruct (jseqb k' k) eqn:E; cbn [map fst In].
    + apply jseqb_eq in E; subst. intuition.
    + rewrite IH. intuition.
Qed.

Lemma ensure_NoDup (k : jsstring) (fresh : V) (o : list (jsstring * V)) :
  NoDup (map fst o) -> NoDup (map fst (Analytics.ensure k fresh o)).
Proof.
  induction o as [|[k' v] o IH]; cbn [Analytics.ensure map fst]; intros ND.
  - repeat constructor. intros [].
  - inversion ND as [|? ? Hk ND']; subst.
    destruct (jseqb k' k) eqn:E; cbn [map fst]; [exact ND|].
    constructor; [|apply IH, ND'].
    intros H. apply ensure_keys in H. destruct H as [->|H]; [|contradiction].
    rewrite jseqb_refl in E. discriminate.
Qed.

Lemma update_keys (k : jsstring) (f : V -> V) (o : list (jsstring * V)) :
  map fst (Analytics.update k f o) = map fst o.
Proof.
  induction o as [|[k' v] o IH]; cbn [Analytics.update map fst]; [reflexivity|].
  destruct (jseqb k' k); cbn [map fst]; [reflexivity | f_equal; exact IH].
Qed.

(** A field of [o[k]] raised by [d], after [o[k]] was made sure of, adds
    [d] to the sum of the field over the object. *)
Lemma upsert_total (counter : V -> nat) (d : nat) (k : jsstring) (fresh : V)
    (f : V -> V) (o : list (jsstring * V)) :
  counter fresh = 0 ->
  (forall v, counter (f v) = counter v + d) ->
  Analytics.total counter (Analytics.update k f (Analytics.ensure k fresh o))
  = Analytics.total counter o + d.
Proof.
  intros H0 Hf. unfold Analytics.total.
  induction o as [|[k' v] o IH]; cbn [Analytics.ensure Analytics.update].
  - rewrite jseqb_refl. cbn [map snd]. rewrite !list_sum_step, Hf, H0.
    cbn. lia.
  - destruct (jseqb k' k) eqn:E; cbn [Analytics.update]; rewrite E;
      cbn [map snd]; rewrite !list_sum_step.
    + rewrite Hf. lia.
    + rewrite IH. lia.
Qed.

Lemma lookup_upsert (k k' : jsstring) (fresh : V) (f : V -> V)
    (o : list (jsstring * V)) :
  Analytics.lookup k' (Analytics.update k f (Analytics.ensure k fresh o))
  = if jseqb k k'
    then Some (f (match Analytics.lookup k o with
                  | Some v => v
                  | None => fresh
                  end))
    else Analytics.lookup k' o.
Proof.
  induction o as [|[k0 v] o IH];
    cbn [Analytics.ensure Analytics.update Analytics.lookup].
  - rewrite jseqb_refl. cbn [Analytics.lookup]. destruct (jseqb k k'); reflexivity.
  - destruct (jseqb k0 k) eqn:E; cbn [Analytics.update]; rewrite E;
      cbn [Analytics.lookup].
    + apply jseqb_eq in E; subst k0. destruct (jseqb k k'); reflexivity.
    + destruct (jseqb k0 k') eqn:E'; [|exact IH].
      apply jseqb_eq in E'; subst k0. rewrite jseqb_sym, E. reflexivity.
Qed.
End MapFacts.

Lemma regKeyOf_idem (r : jsstring) :
  Analytics.regKeyOf (Analytics.regKeyOf r) = Analytics.regKeyOf r.
Proof. unfold Analytics.regKeyOf. destruct (truthy r) eqn:E; [rewrite E|]; reflexivity. Qed.

Lemma call_ledger (s : Analytics.Stats) (c : Analytics.Call) :
  Analytics.Ledger s -> Analytics.Ledger (Analytics.call s c).
Proof.
  intros [a b r d e f g h i].
  destruct c as [[host|]|mode reg|mode reg score rounds|reg];
    cbn [Analytics.call];
    unfold Analytics.recordPageView, Analytics.recordGameStarted,
      Analytics.recordGameCompleted, Analytics.recordRegionChoice,
      Analytics.ensureModeStats, Analytics.ensureRegionStats,
      Analytics.setModeStats, Analytics.setRegionStats;
    rewrite ?regKeyOf_idem;
    constructor;
    cbn [Analytics.pageViews Analytics.gamesStarted Analytics.gamesCompleted
         Analytics.modeStats Analytics.regionStats Analytics.referrers];
    rewrite ?update_keys; try (apply ensure_NoDup); try assumption.
  all: try (rewrite upsert_total with (d := 1)
              by (try reflexivity; intros; cbn; lia); lia).
  all: try (rewrite upsert_total with (d := 0)
              by (try reflexivity; intros; cbn; lia); lia).
  all: try (rewrite (upsert_total _ Analytics.m_totalScore score),
                    (upsert_total _ Analytics.r_totalScore score)
              by (try reflexivity; intros; cbn; lia); lia).
  all: try (rewrite (upsert_total _ Analytics.m_totalRounds rounds),
                    (upsert_total _ Analytics.r_totalRounds rounds)
              by (try reflexivity; intros; cbn; lia); lia).
  all: try (rewrite (upsert_total _ Analytics.m_totalScore 0),
                    (upsert_total _ Analytics.r_totalScore 0)
              by (try reflexivity; intros; cbn; lia); lia).
  all: try (rewrite (upsert_total _ Analytics.m_totalRounds 0),
                    (upsert_total _ Analytics.r_totalRounds 0)
              by (try reflexivity; intros; cbn; lia); lia).
  all: try (rewrite (upsert_total _ Analytics.r_totalScore 0)
              by (try reflexivity; intros; cbn; lia); lia).
  all: try (rewrite (upsert_total _ Analytics.r_totalRounds 0)
              by (try reflexivity; intros; cbn; lia); lia).
Qed.

Lemma call_deltas (s : Analytics.Stats) (c : Analytics.Call) :
  let s' := Analytics.call s c in
  Analytics.pageViews s' = Analytics.pageViews s + Analytics.countViewed [c] /\
  Analytics.gamesStarted s'
  = Analytics.gamesStarted s + Analytics.countStarted [c] /\
  Analytics.gamesCompleted s'
  = Analytics.gamesCompleted s + Analytics.countCompleted [c] /\
  Analytics.total Analytics.m_totalScore (Analytics.modeStats s')
  = Analytics.total Analytics.m_totalScore (Analytics.modeStats s)
    + Analytics.sumScores [c] /\
  Analytics.total Analytics.m_totalRounds (Analytics.modeStats s')
  = Analytics.total Analytics.m_totalRounds (Analytics.modeStats s)
    + Analytics.sumRounds [c] /\
  Analytics.total Analytics.r_chosenCount (Analytics.regionStats s')
  = Analytics.total Analytics.r_chosenCount (Analytics.regionStats s)
    + Analytics.countChosen [c].
Proof.
  destruct c as [[host|]|mode reg|mode reg score rounds|reg];
    cbn [Analytics.call];
    unfold Analytics.recordPageView, Analytics.recordGameStarted,
      Analytics.recordGameCompleted, Analytics.recordRegionChoice,
      Analytics.ensureModeStats, Analytics.ensureRegionStats,
      Analytics.setModeStats, Analytics.setRegionStats;
    rewrite ?regKeyOf_idem;
    cbn [Analytics.pageViews Analytics.gamesStarted Analytics.gamesCompleted
         Analytics.modeStats Analytics.regionStats Analytics.referrers];
    unfold Analytics.countViewed, Analytics.countStarted,
      Analytics.countCompleted, Analytics.countChosen, Analytics.sumScores,
      Analytics.sumRounds;
    cbn [filter map List.length list_sum fold_right];
    repeat split; try lia.
  all: try (rewrite upsert_total with (d := 0)
              by (try reflexivity; intros; cbn; lia); lia).
  all: try (rewrite upsert_total with (d := 1)
              by (try reflexivity; intros; cbn; lia); lia).
  all: try (rewrite (upsert_total _ Analytics.m_totalScore score)
              by (try reflexivity; intros; cbn; lia); lia).
  all: try (rewrite (upsert_total _ Analytics.m_totalRounds rounds)
              by (try reflexivity; intros; cbn; lia); lia).
Qed.

Lemma counts_app (cs cs' : list Analytics.Call) :
  Analytics.countViewed (cs ++ cs')
  = Analytics.countViewed cs + Analytics.countViewed cs' /\
  Analytics.countStarted (cs ++ cs')
  = Analytics.countStarted cs + Analytics.countStarted cs' /\
  Analytics.countCompleted (cs ++ cs')
  = Analytics.countCompleted cs + Analytics.countCompleted cs' /\
  Analytics.countChosen (cs ++ cs')
  = Analytics.countChosen cs + Analytics.countChosen cs' /\
  Analytics.sumScores (cs ++ cs')
  = Analytics.sumScores cs + Analytics.sumScores cs' /\
  Analytics.sumRounds (cs ++ cs')
  = Analytics.sumRounds cs + Analytics.sumRounds cs'.
Proof.
  unfold Analytics.countViewed, Analytics.countStarted,
    Analytics.countCompleted, Analytics.countChosen, Analytics.sumScores,
    Analytics.sumRounds.
  rewrite !filter_app, !length_app, !map_app, !list_sum_app. tauto.
Qed.

Lemma calls_deltas (cs : list Analytics.Call) : forall s,
  let s' := Analytics.calls cs s in
  Analytics.pageViews s' = Analytics.pageViews s + Analytics.countViewed cs /\
  Analytics.gamesStarted s'
  = Analytics.gamesStarted s + Analytics.countStarted cs /\
  Analytics.gamesCompleted s'
  = Analytics.gamesCompleted s + Analytics.countCompleted cs /\
  Analytics.total Analytics.m_totalScore (Analytics.modeStats s')
  = Analytics.total Analytics.m_totalScore (Analytics.modeStats s)
    + Analytics.sumScores cs /\
  Analytics.total Analytics.m_totalRounds (Analytics.modeStats s')
  = Analytics.total Analytics.m_totalRounds (Analytics.modeStats s)
    + Analytics.sumRounds cs /\
  Analytics.total Analytics.r_chosenCount (Analytics.regionStats s')
  = Analytics.total Analytics.r_chosenCount (Analytics.regionStats s)
    + Analytics.countChosen cs.
Proof.
  induction cs as [|c cs IH]; intros s.
  - cbn. repeat split; lia.
  - cbn [Analytics.calls fold_left].
    destruct (IH (Analytics.call s c)) as (A1 & A2 & A3 & A4 & A5 & A6).
    destruct (call_deltas s c) as (B1 & B2 & B3 & B4 & B5 & B6).
    destruct (counts_app [c] cs) as (C1 & C2 & C3 & C4 & C5 & C6).
    cbn [app] in C1, C2, C3, C4, C5, C6.
    unfold Analytics.calls in *. cbv zeta in *.
    rewrite A1, A2, A3, A4, A5, A6, B1, B2, B3, B4, B5, B6,
      C1, C2, C3, C4, C5, C6.
    repeat split; lia.
Qed.

Lemma calls_ledger (cs : list Analytics.Call) : forall s,
  Analytics.Ledger s -> Analytics.Ledger (Analytics.calls cs s).
Proof.
  induction cs as [|c cs IH]; intros s L; [exact L|].
  cbn [Analytics.calls fold_left]. apply IH, call_ledger, L.
Qed.


Lemma empty_ledger : Analytics.Ledger Analytics.createEmptyStats.
Proof. constructor; cbn; try constructor; reflexivity. Qed.




Section CallFacts.
Variable SONGS : list Song.

Lemma step_start (st : State) (rng : Rng) (e : Event) :
  starts_game e = true ->
  step SONGS (st, rng) e = startNewGame SONGS (beforeStart st e) rng.
Proof. destruct e; cbn; intros H; try discriminate; reflexivity. Qed.

Lemma beforeStart_progress (st : State) (e : Event) :
  inProgress (beforeStart st e) = inProgress st.
Proof. destruct e; reflexivity. Qed.

Lemma inProgress_le (st : State) : inProgress st <= 1.
Proof.
  unfold inProgress. destruct (gameComplete st); [lia|].
  destruct (sessionSongs st); lia.
Qed.

Lemma startCalls_counts (st : State) :
  Analytics.countCompleted (startCalls SONGS st) = 0 /\
  Analytics.countStarted (startCalls SONGS st)
  = match getRegionPool SONGS (currentRegion st) with [] => 0 | _ => 1 end.
Proof.
  unfold startCalls. destruct (getRegionPool SONGS (currentRegion st));
    split; reflexivity.
Qed.

Lemma step_balance (st : State) (rng : Rng) (e : Event) :
  reachable SONGS st ->
  Analytics.countCompleted (stepCalls SONGS st e)
  + inProgress (fst (step SONGS (st, rng) e))
  <= Analytics.countStarted (stepCalls SONGS st e) + inProgress st.
Proof.
  intros R.
  pose proof (reachable_inv SONGS st R) as I.
  pose proof (reachable_session SONGS st R) as J.
  destruct (starts_game e) eqn:Hs.
  - rewrite (step_start st rng e Hs).
    assert (C : Analytics.countCompleted (stepCalls SONGS st e) = 0 /\
                Analytics.countStarted (stepCalls SONGS st e)
                = match getRegionPool SONGS (currentRegion (beforeStart st e))
                  with [] => 0 | _ => 1 end).
    { destruct (startCalls_counts (beforeStart st e)) as [C1 C2].
      destruct e; try discriminate; cbn [stepCalls]; try (split; assumption). }
    destruct C as [C1 C2]. rewrite C1, C2.
    destruct (getRegionPool SONGS (currentRegion (beforeStart st e))) eqn:Hp.
    + rewrite (startNewGame_refuses SONGS _ rng Hp). cbn [fst].
      rewrite beforeStart_progress. lia.
    + pose proof (inProgress_le
                    (fst (startNewGame SONGS (beforeStart st e) rng))). lia.
  - destruct e; try discriminate; cbn [stepCalls step fst].
    + (* an answer *)
      pose proof (handleAnswer_rounds st songObj) as Hr.
      pose proof (handleAnswer_sessionSongs st songObj) as Hq.
      destruct (answersCorrectly st songObj) eqn:Ha.
      * assert (Ho : hasAnswered st = false).
        { unfold answersCorrectly in Ha.
          destruct (hasAnswered st); [discriminate|reflexivity]. }
        assert (Hc : exists cur, currentSong st = Some cur).
        { unfold answersCorrectly in Ha. rewrite Ho in Ha.
          destruct (currentSong st) as [cur|]; [eauto|discriminate]. }
        destruct Hc as [cur Hc].
        destruct (sess_target SONGS st J cur Hc) as [Hin _].
        pose proof (inv_open st I Ho) as Hlt.
        assert (P : inProgress st = 1).
        { unfold inProgress, gameComplete.
          destruct (Nat.leb_spec TOTAL_ROUNDS (roundsAnswered st)); [lia|].
          destruct (sessionSongs st); [destruct Hin|reflexivity]. }
        rewrite P. cbn [andb].
        destruct (gameComplete (handleAnswer st songObj)) eqn:Hg.
        -- unfold inProgress. rewrite Hg. cbn. lia.
        -- pose proof (inProgress_le (handleAnswer st songObj)). cbn. lia.
      * cbn [andb].
        change (Analytics.countCompleted []) with 0.
        change (Analytics.countStarted []) with 0.
        unfold inProgress, gameComplete. rewrite Hr, Hq. lia.
    + (* Next *)
      change (Analytics.countCompleted []) with 0.
      change (Analytics.countStarted []) with 0.
      unfold inProgress, gameComplete.
      rewrite (goToNextRound_rounds SONGS st rng),
        (goToNextRound_sessionSongs SONGS st rng). lia.
    + (* Change mode *)
      change (Analytics.countCompleted []) with 0.
      change (Analytics.countStarted []) with 0.
      unfold inProgress, gameComplete. cbn. lia.
Qed.

Lemma stepCalls_bounded (st : State) (e : Event) :
  reachable SONGS st -> Forall boundedCall (stepCalls SONGS st e).
Proof.
  intros R.
  assert (S : forall st', Forall boundedCall (startCalls SONGS st')).
  { intros st'. unfold startCalls.
    destruct (getRegionPool SONGS (currentRegion st'));
      repeat constructor. }
  destruct e; cbn [stepCalls]; try apply S; try constructor;
    try exact I; try apply S.
  destruct (answersCorrectly st songObj && gameComplete (handleAnswer st songObj))
    eqn:H; [|constructor].
  constructor; [|constructor].
  cbn [boundedCall]. split; [|reflexivity].
  pose proof (reachable_inv SONGS _
                (reach_step SONGS st (fun _ => 0%Q) (ClickAnswer songObj) R))
    as I'.
  cbn [step fst] in I'.
  pose proof (inv_score _ I'). pose proof (inv_rounds _ I'). lia.
Qed.

Lemma runCalls_balance (es : list Event) : forall (w : State * Rng),
  reachable SONGS (fst w) ->
  Analytics.countCompleted (runCalls SONGS w es)
  <= Analytics.countStarted (runCalls SONGS w es) + inProgress (fst w).
Proof.
  induction es as [|e es IH]; intros [st rng] R; cbn [fst] in R.
  - cbn. lia.
  - cbn [runCalls fst].
    destruct (counts_app (stepCalls SONGS st e)
                (runCalls SONGS (step SONGS (st, rng) e) es))
      as (_ & C2 & C3 & _).
    rewrite C2, C3.
    pose proof (step_balance st rng e R) as B.
    pose proof (IH (step SONGS (st, rng) e)
                  (reach_step SONGS st rng e R)) as B'.
    lia.
Qed.

Lemma runCalls_bounded (es : list Event) : forall (w : State * Rng),
  reachable SONGS (fst w) -> Forall boundedCall (runCalls SONGS w es).
Proof.
  induction es as [|e es IH]; intros [st rng] R; cbn [fst] in R.
  - constructor.
  - cbn [runCalls fst]. apply Forall_app. split.
    + apply stepCalls_bounded, R.
    + apply IH, (reach_step SONGS st rng e R).
Qed.
End CallFacts.

Lemma bounded_sums (cs : list Analytics.Call) :
  Forall boundedCall cs ->
  Analytics.sumScores cs <= Analytics.sumRounds cs /\
  Analytics.sumRounds cs = TOTAL_ROUNDS * Analytics.countCompleted cs.
Proof.
  induction 1 as [|c cs Hc _ IH].
  - split; reflexivity.
  - destruct (counts_app [c] cs) as (_ & _ & C3 & _ & C5 & C6).
    cbn [app] in C3, C5, C6. rewrite C3, C5, C6.
    destruct IH as [IH1 IH2].
    destruct c as [host|mode reg|mode reg score rounds|reg];
      cbn [boundedCall] in Hc;
      unfold Analytics.countCompleted, Analytics.sumScores, Analytics.sumRounds
        in *;
      cbn [filter map List.length list_sum fold_right] in *; try lia.
Qed.

(** X15.  What game.js reports to the analytics over a run of the page
    from its load: never more completed games than started ones; every
    completed game with a score of at most five out of five rounds; so
    the counters [gamesCompleted <= gamesStarted] stay in this order, and
    the scores add up to at most the rounds, five for each completed
    game. *)
Theorem completed_games_were_started (SONGS : list Song) (rng : Rng)
    (es : list Event) (s : Analytics.Stats) :
  let cs := runCalls SONGS (initial, rng) es in
  let s' := Analytics.calls cs s in
  Analytics.countCompleted cs <= Analytics.countStarted cs /\
  (forall mode regionName score roundsTotal,
     In (Analytics.GameCompleted mode regionName score roundsTotal) cs ->
     score <= roundsTotal /\ roundsTotal = TOTAL_ROUNDS) /\
  Analytics.sumScores cs <= Analytics.sumRounds cs /\
  Analytics.sumRounds cs = TOTAL_ROUNDS * Analytics.countCompleted cs /\
  (Analytics.gamesCompleted s <= Analytics.gamesStarted s ->
   Analytics.gamesCompleted s' <= Analytics.gamesStarted s').
Proof.
  intros cs s'.
  pose proof (runCalls_balance SONGS es (initial, rng) (reach_initial SONGS))
    as B.
  pose proof (runCalls_bounded SONGS es (initial, rng) (reach_initial SONGS))
    as F.
  fold cs in B, F. cbn [fst] in B.
  change (inProgress initial) with 0 in B.
  destruct (bounded_sums cs F) as [S1 S2].
  destruct (calls_deltas cs s) as (_ & D2 & D3 & _).
  fold s' in D2, D3.
  split; [lia|]. split; [|split; [exact S1|split; [exact S2|lia]]].
  intros mode regionName score roundsTotal Hin.
  rewrite Forall_forall in F. exact (F _ Hin).
Qed.

(* ------------------------------------------------------------------------- *)
(** ** The orders the shuffle gives on a tape *)

Section TapeFacts.
Variable A : Type.

Lemma unitKeys_sorted (d : positive) (l : list A) : forall from,
  StronglySorted key_lt (combine l (unitKeys d from (List.length l))).
Proof.
  induction l as [|a l IH]; intros from; [constructor|].
  cbn [List.length unitKeys seq map combine]. constructor; [apply IH|].
  apply Forall_forall. intros [b r] H. apply in_combine_r in H.
  apply in_map_iff in H. destruct H as (i & <- & Hi). apply in_seq in Hi.
  unfold key_lt, key_le; cbn [snd].
  destruct (Qle_bool _ _) eqn:E; [|reflexivity].
  apply Qle_bool_iff in E. unfold Qle in E. cbn in E. nia.
Qed.

Lemma unitKeys_inUnit (n : nat) :
  Forall inUnit (unitKeys (Pos.of_succ_nat n) 0 n).
Proof.
  apply Forall_forall. intros r H. apply in_map_iff in H.
  destruct H as (i & <- & Hi). apply in_seq in Hi.
  unfold inUnit, Qle, Qlt. cbn. rewrite Zpos_P_of_succ_nat. lia.
Qed.

Lemma tapeOf_draw (rs : list Q) :
  fst (draw (List.length rs) (tapeOf rs)) = rs.
Proof.
  unfold draw, tapeOf. cbn [fst].
  apply nth_ext with (d := 0%Q) (d' := 0%Q).
  - rewrite length_map, length_seq. reflexivity.
  - intros i Hi. rewrite length_map, length_seq in Hi.
    rewrite (nth_indep _ 0%Q (nth 0 rs 0%Q)) by
      (rewrite length_map, length_seq; exact Hi).
    change (nth 0 rs 0%Q) with ((fun i => nth i rs 0%Q) 0).
    rewrite map_nth, seq_nth by exact Hi. reflexivity.
Qed.

Lemma tapeOf_inUnit (rs : list Q) :
  Forall inUnit rs -> forall i, inUnit (tapeOf rs i).
Proof.
  intros F i. unfold tapeOf.
  destruct (Nat.lt_ge_cases i (List.length rs)) as [H|H].
  - rewrite Forall_forall in F. apply F, nth_In, H.
  - rewrite nth_overflow by exact H. split; [apply Qle_refl|reflexivity].
Qed.

Lemma constant_draw (k : Q) (n : nat) :
  fst (draw n (fun _ => k)) = repeat k n.
Proof.
  unfold draw. cbn [fst]. generalize 0.
  induction n as [|n IH]; intros from; cbn; [reflexivity|].
  f_equal. apply IH.
Qed.

Lemma combine_fst_snd (l : list (A * Q)) :
  combine (map fst l) (map snd l) = l.
Proof. induction l as [|[a r] l IH]; cbn; [reflexivity | f_equal; exact IH]. Qed.
End TapeFacts.

(** X16.  Every rearrangement of an array is a result of [shuffle]: for
    each one there are values in the range of [Math.random()], from 0 up
    to but not 1, on which [shuffle] returns it. *)
Theorem shuffle_gives_every_order (A : Type) (arr arr' : list A) :
  Permutation arr arr' ->
  exists rng : Rng,
    (forall i, inUnit (rng i)) /\ fst (shuffle arr rng) = arr'.
Proof.
  intros P.
  set (n := List.length arr').
  set (t := combine arr' (unitKeys (Pos.of_succ_nat n) 0 n)).
  assert (Ft : map fst t = arr').
  { apply map_fst_combine. unfold unitKeys.
    rewrite length_map, length_seq. unfold n. lia. }
  assert (Fk : Forall inUnit (map snd t)).
  { apply Forall_forall. intros r H. apply in_map_iff in H.
    destruct H as ([a r'] & <- & H). apply in_combine_r in H.
    pose proof (unitKeys_inUnit n) as U. rewrite Forall_forall in U.
    apply U, H. }
  rewrite <- Ft in P. apply Permutation_map_inv in P.
  destruct P as (l & -> & P).
  exists (tapeOf (map snd l)). split.
  - apply tapeOf_inUnit.
    apply (Permutation_Forall (Permutation_map snd P)). exact Fk.
  - unfold shuffle.
    replace (List.length (map fst l)) with (List.length (map snd l))
      by (rewrite !length_map; reflexivity).
    pose proof (tapeOf_draw (map snd l)) as D.
    destruct (draw (List.length (map snd l)) (tapeOf (map snd l)))
      as [rs rng']. cbn [fst] in D |- *. subst rs.
    unfold shuffle_with. rewrite combine_fst_snd.
    rewrite (sort_by_key_sorted A l t); [exact Ft | apply unitKeys_sorted|].
    symmetry; exact P.
Qed.

Lemma shuffle_gives_every_order_witness :
  exists rng : Rng,
    (forall i, inUnit (rng i)) /\ fst (shuffle [1; 2; 3] rng) = [3; 1; 2].
Proof.
  apply (shuffle_gives_every_order nat [1; 2; 3] [3; 1; 2]).
  apply Permutation_sym, (Permutation_cons_app [1; 2] [] 3). reflexivity.
Defined.

(** X17.  When [Math.random()] returns the same value at every call,
    [shuffle] returns the array in the order it had: the comparator is 0
    on every pair and the sort is stable. *)
Theorem shuffle_constant_tape (A : Type) (k : Q) (arr : list A) :
  fst (shuffle arr (fun _ => k)) = arr.
Proof.
  unfold shuffle.
  pose proof (constant_draw k (List.length arr)) as D.
  destruct (draw (List.length arr) (fun _ => k)) as [rs rng'].
  cbn [fst] in D |- *. subst rs. apply shuffle_with_ties.
Qed.

(* ------------------------------------------------------------------------- *)
(** ** The entries of the statistics *)

Section EntryFacts.
Variable V : Type.
Variable P : V -> Prop.

Lemma ensure_entries (k : jsstring) (fresh : V) (o : list (jsstring * V)) :
  P fresh ->
  (forall k' v, In (k', v) o -> P v) ->
  forall k' v, In (k', v) (Analytics.ensure k fresh o) -> P v.
Proof.
  intros Hf. induction o as [|[k0 v0] o IH]; intros Ho k' v Hin.
  - cbn in Hin. destruct Hin as [E|[]]. inversion E; subst. exact Hf.
  - cbn [Analytics.ensure] in Hin. destruct (jseqb k0 k).
    + exact (Ho k' v Hin).
    + destruct Hin as [E|Hin].
      * apply (Ho k' v). left. exact E.
      * apply (IH (fun k1 v1 H => Ho k1 v1 (or_intror H)) k' v Hin).
Qed.

Lemma update_entries (k : jsstring) (f : V -> V) (o : list (jsstring * V)) :
  (forall v, P v -> P (f v)) ->
  (forall k' v, In (k', v) o -> P v) ->
  forall k' v, In (k', v) (Analytics.update k f o) -> P v.
Proof.
  intros Hf. induction o as [|[k0 v0] o IH]; intros Ho k' v Hin.
  - destruct Hin.
  - cbn [Analytics.update] in Hin. destruct (jseqb k0 k).
    + destruct Hin as [E|Hin].
      * inversion E; subst. apply Hf. eapply Ho. left. reflexivity.
      * apply (Ho k' v). right. exact Hin.
    + destruct Hin as [E|Hin].
      * apply (Ho k' v). left. exact E.
      * apply (IH (fun k1 v1 H => Ho k1 v1 (or_intror H)) k' v Hin).
Qed.
End EntryFacts.

Lemma call_entries (s : Analytics.Stats) (c : Analytics.Call) :
  boundedCall c -> entriesOk s -> entriesOk (Analytics.call s c).
Proof.
  intros Hc [Hm Hr].
  destruct c as [[host|]|mode reg|mode reg score rounds|reg];
    cbn [Analytics.call boundedCall] in *;
    unfold Analytics.recordPageView, Analytics.recordGameStarted,
      Analytics.recordGameCompleted, Analytics.recordRegionChoice,
      Analytics.ensureModeStats, Analytics.ensureRegionStats,
      Analytics.setModeStats, Analytics.setRegionStats;
    (split;
     cbn [Analytics.pageViews Analytics.gamesStarted Analytics.gamesCompleted
          Analytics.modeStats Analytics.regionStats Analytics.referrers];
     try assumption).
  all: apply update_entries;
    [| apply ensure_entries;
       [split; cbn; unfold TOTAL_ROUNDS; lia | assumption]].
  all: intros v [H1 H2]; split; cbn; unfold TOTAL_ROUNDS in *; lia.
Qed.

Lemma summaryRounds_ok (totalRounds gamesCompleted : nat) :
  totalRounds = TOTAL_ROUNDS * gamesCompleted ->
  summaryRounds totalRounds gamesCompleted = totalRounds.
Proof.
  intros H. unfold summaryRounds, TOTAL_ROUNDS in *.
  destruct (Nat.eqb_spec totalRounds 0) as [E|E]; cbn [negb]; [|reflexivity].
  destruct (Nat.eqb_spec (gamesCompleted * 5) 0) as [E'|E']; cbn [negb]; lia.
Qed.

(** X18.  When every report of a completed game has a score of at most
    its five rounds, as those of game.js have, every entry of the mode
    and of the region statistics keeps five rounds for each completed
    game and a score within its rounds; so the fallback that
    [getSummary] has for the rounds, five times the completed games, is
    the recorded number of rounds. *)
Theorem recorded_rounds_match_games (cs : list Analytics.Call)
    (s : Analytics.Stats) :
  Forall boundedCall cs ->
  entriesOk s ->
  let s' := Analytics.calls cs s in
  entriesOk s' /\
  (forall mode ms, In (mode, ms) (Analytics.modeStats s') ->
     summaryRounds (Analytics.m_totalRounds ms) (Analytics.m_gamesCompleted ms)
     = Analytics.m_totalRounds ms) /\
  (forall reg rs, In (reg, rs) (Analytics.regionStats s') ->
     summaryRounds (Analytics.r_totalRounds rs) (Analytics.r_gamesCompleted rs)
     = Analytics.r_totalRounds rs).
Proof.
  intros F. revert s. induction F as [|c cs Hc _ IH]; intros s Hs.
  - cbn. split; [exact Hs|]. destruct Hs as [Hm Hr]. split.
    + intros mode ms H. apply summaryRounds_ok, (Hm mode ms H).
    + intros reg rs H. apply summaryRounds_ok, (Hr reg rs H).
  - cbn [Analytics.calls fold_left]. apply IH, call_entries; assumption.
Qed.

Lemma recorded_rounds_match_games_witness :
  let s' := Analytics.calls sampleCalls Analytics.createEmptyStats in
  entriesOk s' /\
  (forall mode ms, In (mode, ms) (Analytics.modeStats s') ->
     summaryRounds (Analytics.m_totalRounds ms) (Analytics.m_gamesCompleted ms)
     = Analytics.m_totalRounds ms) /\
  (forall reg rs, In (reg, rs) (Analytics.regionStats s') ->
     summaryRounds (Analytics.r_totalRounds rs) (Analytics.r_gamesCompleted rs)
     = Analytics.r_totalRounds rs).
Proof.
  apply (recorded_rounds_match_games sampleCalls Analytics.createEmptyStats).
  - unfold sampleCalls. repeat constructor.
  - split; intros k v [].
Defined.
